(** * Command-line request builder of go-btfs-cmds (package [cli])

    A shallow embedding of [Parse], [parse], [parseArgs] and their helpers
    (option parsing, sub-command walking, argument distribution, file
    resolution), followed by the properties of the specification that were
    checked against it.

    Conventions of the embedding.
    - Go strings are byte strings: [string] (a list of [ascii]).
    - Go maps are [gmap]s; a [nil] map reads like the empty map.
    - [interface{}] option values are the tagged union [value]; comparing an
      interface with a constant ([== true], [== ""]) compares the dynamic
      type and the value.
    - A function that returns [error] yields a [res]: [Ok], [Fail e], or
      [Abort] where the Go code would not return at all (a nil dereference
      or a loop that never ends).  A function that mutates its request only
      just before [return nil] is a function to the mutated request.
    - What the package takes from its collaborators (the command library,
      the operating system) is the class [Env]. *)

From stdpp Require Import gmap strings list fin_maps.
From Stdlib Require Import ZArith Lia Ascii.

#[local] Open Scope string_scope.
#[local] Open Scope list_scope.
#[local] Open Scope nat_scope.
#[local] Open Scope stdpp_scope.
#[local] Set Warnings "-register-all".

(** ** Data model *)

Module cmdkit.

(** [reflect.Kind] of an option's value, as far as the option
    constructors of the command kit use it. *)
Inductive Kind : Set := Bool | Int | Uint | Int64 | Uint64 | Float | String.

Inductive ArgumentType : Set := ArgString | ArgFile.

(** [cmdkit.Argument]: one argument slot. *)
Record Argument : Set := {
  ArgName : string;
  ArgType : ArgumentType;
  Required : bool;
  Variadic : bool;
  SupportsStdin : bool;
  Recursive : bool
}.

End cmdkit.
Export cmdkit.

#[global] Instance Kind_eq_dec : EqDecision cmdkit.Kind.
Proof. solve_decision. Defined.

(** A dynamically typed option value ([interface{}]). [VEncodingType] is
    the named string type of the encoding constants. *)
Inductive value : Set :=
| VBool (b : bool)
| VInt (n : Z)
| VString (s : string)
| VEncodingType (s : string).

#[global] Instance value_eq_dec : EqDecision value.
Proof. solve_decision. Defined.

(** [os.FileInfo], as far as it is inspected: [IsDir()] and the
    [ModeCharDevice] bit of [Mode()]. *)
Record FileInfo : Set := {
  IsDir : bool;
  ModeCharDevice : bool
}.

(** [*cmds.Command]: the children, the argument slots, the external flag
    and the encoder table ([nil] or a map whose entries may be [nil]). *)
Inductive Command : Type := mkCommand {
  Subcommands : gmap string Command;
  Arguments : list Argument;
  External : bool;
  Encoders : option (gmap string bool)
}.

(** [url.URL], as far as [isURL] reads it. *)
Record URL : Set := {
  Scheme : string;
  Host : string
}.

Inductive Err : Type :=
| ErrMultipleValues (k : string)             (* "multiple values for option %q" *)
| ErrUnknownOption (k : string)              (* "unknown option %q" *)
| ErrMissingArgument (k : string)            (* "missing argument for option %q" *)
| ErrArgRequired (name : string)             (* "argument %q is required" *)
| ErrNotRecursive (fpath flag : string)      (* notRecursiveFmtStr *)
| ErrDirNotSupported (fpath name : string)   (* dirNotSupportedFmtStr *)
| ErrSuggestions (inputs : list string) (root : Command)
| ErrInvalid                                 (* os.ErrInvalid: a nil file *)
| ErrForeign (msg : string).                 (* an error made by a collaborator *)

(** [*os.File]: its name and what [Stat()] answers. *)
Record File : Type := {
  FileName : string;
  FileStat : Err + FileInfo
}.

(** The [io.ReadCloser] handed to a stream node: the file itself, or the
    [messageReader] that prints [message] before the first read. *)
Inductive Reader : Type :=
| fileReader (f : File)
| messageReader (r : File) (done : bool) (message : string).

(** Modelled from the spec: the file nodes of [go-ipfs-files] are declared
    outside these sources.  A file node is one of a standard-input stream,
    a network resource, a regular file and a directory tree; filesystem
    nodes carry the OS file status, a directory tree also the hidden-file
    visibility. *)
Inductive Node : Type :=
| ReaderFile (name : string) (r : Reader)
| WebFile (u : URL)
| RegularFile (path : string) (stat : FileInfo)
| DirectoryTree (path : string) (hidden : bool) (stat : FileInfo).

(** Modelled from the spec: the option interface of the command kit is
    declared outside these sources.  An option has a canonical name, which
    is the first of its aliases, a value kind and a fallible value
    parser. [OptNames] is [Names()], [OptName] is [Name()]. *)
Record Option : Type := {
  OptName : string;
  OptAliases : list string;
  OptType : cmdkit.Kind;
  OptParse : string -> Err + value
}.

Definition OptNames (o : Option) : list string := OptName o :: OptAliases o.

(** [*cmds.Request].  [req_Root] and [req_Command] are pointers, [nil]
    until [parse] has set them; [req_Files] is [nil] until [parseArgs]
    attaches a directory of file nodes. *)
Record Request : Type := {
  req_Root : option Command;
  req_Command : option Command;
  req_Path : list string;
  req_Arguments : list string;
  req_Options : gmap string value;
  req_Files : option (gmap string Node)
}.

(** [&cmds.Request{Context: ctx}] *)
Definition newRequest : Request :=
  {| req_Root := None; req_Command := None; req_Path := [];
     req_Arguments := []; req_Options := ∅; req_Files := None |}.

(** ** Results *)

Inductive res (A : Type) : Type :=
| Ok (a : A)
| Fail (e : Err)
| Abort.
Arguments Ok {A} a.
Arguments Fail {A} e.
Arguments Abort {A}.

#[global] Instance res_ret : MRet res := fun A a => Ok a.

#[global] Instance res_bind : MBind res := fun A B f m =>
  match m with
  | Ok a => f a
  | Fail e => Fail e
  | Abort => Abort
  end.

(** An [(T, error)] pair of a collaborator. *)
Definition lift {A} (r : Err + A) : res A :=
  match r with
  | inl e => Fail e
  | inr a => Ok a
  end.

(** A pointer that is dereferenced: [nil] does not return. *)
Definition deref {A} (p : option A) : res A :=
  match p with
  | Some a => Ok a
  | None => Abort
  end.

(** ** Collaborators *)

Class Env : Type := {
  (** [root.GetOptions(path)]: the option table visible at a path, keyed by
      every alias. *)
  GetOptions : Command -> list string -> Err + gmap string Option;
  (** [req.FillDefaults()]: the request as it leaves the call, and the
      error. *)
  FillDefaults : Request -> Request * option Err;
  (** [req.SetOption(name, value)] *)
  SetOption : Request -> string -> value -> Request;
  (** Option names and encodings of package [cmds]. *)
  EncLong : string;
  RecLong : string;
  RecShort : string;
  Hidden : string;
  StdinName : string;
  DerefLong : string;
  Text : string;
  JSON : string;
  (** [osh.IsWindows()] *)
  IsWindows : bool;
  (** [url.Parse], [filepath.Clean], [filepath.ToSlash], [path.Base],
      [os.Getwd], [filepath.EvalSymlinks], [os.Lstat]. *)
  url_Parse : string -> Err + URL;
  filepath_Clean : string -> string;
  filepath_ToSlash : string -> string;
  path_Base : string -> string;
  os_Getwd : Err + string;
  filepath_EvalSymlinks : string -> Err + string;
  os_Lstat : string -> Err + FileInfo
}.

(** Modelled from the spec: [printSuggestions] lives in a file of the
    package that is not at hand.  It surfaces the unrecognized-command
    condition as an error that carries the offending tokens and the root
    of the command tree. *)
Definition printSuggestions (inputs : list string) (root : Command) : Err :=
  ErrSuggestions inputs root.

(** Modelled from the spec: a stream node over a reader, under a name. *)
Definition NewReaderPathFile (path : string) (r : Reader) : Err + Node :=
  inr (ReaderFile path r).

(** Modelled from the spec: a network-resource node for a URL. *)
Definition NewWebFile (u : URL) : Node := WebFile u.

(** Modelled from the spec: a filesystem node for a path whose status is
    [stat]: a directory tree with its hidden-file visibility, or a regular
    file. *)
Definition NewSerialFile (path : string) (hidden : bool) (stat : FileInfo)
  : Err + Node :=
  if IsDir stat then inr (DirectoryTree path hidden stat)
  else inr (RegularFile path stat).

(** ** Strings *)

(** [s[n:]] *)
Fixpoint string_drop (n : nat) (s : string) : string :=
  match n, s with
  | O, _ => s
  | S n', EmptyString => EmptyString
  | S n', String.String _ s' => string_drop n' s'
  end.

(** [strings.HasPrefix(s, p)] *)
Definition HasPrefix (s p : string) : bool := String.prefix p s.

(** [splitkv]: [strings.SplitN(opt, "=", 2)] cuts at the first ["="]. *)
Fixpoint splitkv (opt : string) : string * string * bool :=
  match opt with
  | EmptyString => (EmptyString, EmptyString, false)
  | String.String c rest =>
      if Ascii.eqb c "="%char then (EmptyString, rest, true)
      else let '(k, v, ok) := splitkv rest in (String.String c k, v, ok)
  end.

(** ** The cursor *)

Record parseState : Type := {
  cmdline : list string;
  i : nat
}.

Definition done (st : parseState) : bool :=
  bool_decide (length (cmdline st) ≤ i st).

(** [st.cmdline[st.i]]; an index out of range does not return. *)
Definition peek (st : parseState) : res string :=
  deref (cmdline st !! i st).

(** [st.i < len(st.cmdline)-1] *)
Definition hasNext (st : parseState) : bool :=
  bool_decide (Z.of_nat (i st) < Z.of_nat (length (cmdline st)) - 1)%Z.

(** [st.i++] *)
Definition advance (st : parseState) : parseState :=
  {| cmdline := cmdline st; i := S (i st) |}.

(** ** Options *)

Record kv : Type := {
  Key : string;
  Value : value
}.

Definition parseOpt (opt val : string) (opts : gmap string Option) : res value :=
  match opts !! opt with
  | None => Fail (ErrUnknownOption opt)
  | Some optDef => lift (OptParse optDef val)
  end.

(** The [LOOP] of [parseShortOpts].  [ks] is what is left of the flags,
    [k[j:]]: its first byte is the flag [k[j:j+1]], its tail [k[j+1:]] is
    empty exactly when [j < len(k)-1] fails. *)
Fixpoint parseShortFlags (k ks : string) (st : parseState)
    (optDefs : gmap string Option) (kvs : list kv) : res (parseState * list kv) :=
  match ks with
  | EmptyString => Ok (st, kvs)
  | String.String c rest =>
      let flag := String.String c EmptyString in
      match optDefs !! flag with
      | None => Fail (ErrUnknownOption k)
      | Some od =>
          if bool_decide (OptType od = cmdkit.Bool) then
            parseShortFlags k rest st optDefs
              (kvs ++ [{| Key := flag; Value := VBool true |}])
          else if negb (bool_decide (rest = EmptyString)) then
            v ← parseOpt flag rest optDefs;
            Ok (st, kvs ++ [{| Key := flag; Value := v |}])
          else if hasNext st then
            let st := advance st in
            word ← peek st;
            v ← parseOpt flag word optDefs;
            Ok (st, kvs ++ [{| Key := flag; Value := v |}])
          else Fail (ErrMissingArgument k)
      end
  end.

Definition parseShortOpts (st : parseState) (optDefs : gmap string Option)
  : res (parseState * list kv) :=
  param ← peek st;
  let '(k, vStr, ok) := splitkv (string_drop 1 param) in
  if ok then
    v ← parseOpt k vStr optDefs;
    Ok (st, [{| Key := k; Value := v |}])
  else parseShortFlags k k st optDefs [].

Definition parseLongOpt (st : parseState) (optDefs : gmap string Option)
  : res (parseState * (string * value)) :=
  param ← peek st;
  let '(k, v, ok) := splitkv (string_drop 2 param) in
  if ok then
    optval ← parseOpt k v optDefs;
    Ok (st, (k, optval))
  else
    match optDefs !! k with
    | None => Fail (ErrUnknownOption k)
    | Some optDef =>
        if bool_decide (OptType optDef = cmdkit.Bool) then Ok (st, (k, VBool true))
        else if hasNext st then
          let st := advance st in
          v ← peek st;
          optval ← parseOpt k v optDefs;
          Ok (st, (k, optval))
        else Fail (ErrMissingArgument k)
    end.

(** ** The command line *)

(** The variables of [parse]. *)
Record parseVars : Type := {
  path : list string;
  args : list string;
  opts : gmap string value;
  cmd : Command;
  optDefs : gmap string Option;
  st : parseState
}.

(** How one turn of the loop [L] ends: at [st.i++], or at [break L]. *)
Inductive turn : Type :=
| Next (s : parseVars)
| BreakL (s : parseVars).

(** [for _, kv := range kvs]: each key is replaced by the first name of
    its option and set unless it is set already. *)
Fixpoint setShortOpts (optDefs : gmap string Option) (kvs : list kv)
    (opts : gmap string value) : res (gmap string value) :=
  match kvs with
  | [] => Ok opts
  | kv :: kvs =>
      od ← deref (optDefs !! Key kv);
      key ← deref (head (OptNames od));
      match opts !! key with
      | Some _ => Fail (ErrMultipleValues key)
      | None => setShortOpts optDefs kvs (<[key := Value kv]> opts)
      end
  end.

Section Parser.
Context `{E : Env}.

(** The body of the loop [L] of [parse], at the token [param]. *)
Definition parseTurn (root : Command) (s : parseVars) (param : string) : res turn :=
  if bool_decide (param = "--") then
    (* use the rest as positional arguments *)
    Ok (BreakL {| path := path s;
                  args := args s ++ drop (i (st s) + 1) (cmdline (st s));
                  opts := opts s; cmd := cmd s; optDefs := optDefs s; st := st s |})
  else if HasPrefix param "--" then
    (* long option *)
    '(st', (k, v)) ← parseLongOpt (st s) (optDefs s);
    match opts s !! k with
    | Some _ => Fail (ErrMultipleValues k)
    | None =>
        od ← deref (optDefs s !! k);
        let k := OptName od in
        Ok (Next {| path := path s; args := args s; opts := <[k := v]> (opts s);
                    cmd := cmd s; optDefs := optDefs s; st := st' |})
    end
  else if HasPrefix param "-" && negb (bool_decide (param = "-")) then
    (* short options *)
    '(st', kvs) ← parseShortOpts (st s) (optDefs s);
    opts' ← setShortOpts (optDefs s) kvs (opts s);
    Ok (Next {| path := path s; args := args s; opts := opts';
                cmd := cmd s; optDefs := optDefs s; st := st' |})
  else
    (* a sub-command or a positional argument *)
    match Subcommands (cmd s) !! param with
    | Some sub =>
        let path' := path s ++ [param] in
        optDefs' ← lift (GetOptions root path');
        if External sub then
          Ok (BreakL {| path := path';
                        args := args s ++ drop (i (st s) + 1) (cmdline (st s));
                        opts := opts s; cmd := sub; optDefs := optDefs'; st := st s |})
        else
          Ok (Next {| path := path'; args := args s; opts := opts s;
                      cmd := sub; optDefs := optDefs'; st := st s |})
    | None =>
        let args' := args s ++ [param] in
        if bool_decide (length (path s) = 0) then
          (* found a typo or early argument *)
          Fail (printSuggestions args' root)
        else
          Ok (Next {| path := path s; args := args'; opts := opts s;
                      cmd := cmd s; optDefs := optDefs s; st := st s |})
    end.

(** The loop [L]: [for !st.done() { ...; st.i++ }].  Every turn moves the
    cursor forward, so [fuel] turns are enough when [fuel] is the number
    of tokens ahead ([parseLoop_returns]). *)
Fixpoint parseLoop (fuel : nat) (root : Command) (s : parseVars) : res parseVars :=
  if done (st s) then Ok s
  else
    match fuel with
    | O => Abort
    | S fuel =>
        param ← peek (st s);
        t ← parseTurn root s param;
        match t with
        | BreakL s' => Ok s'
        | Next s' =>
            parseLoop fuel root
              {| path := path s'; args := args s'; opts := opts s'; cmd := cmd s';
                 optDefs := optDefs s'; st := advance (st s') |}
        end
    end.

Definition parseStart (cmdline : list string) (root : Command)
    (optDefs : gmap string Option) : parseVars :=
  {| path := []; args := []; opts := ∅; cmd := root; optDefs := optDefs;
     st := {| cmdline := cmdline; i := 0 |} |}.

(** [parse]: the request is written only after the loop, just before
    [return nil]. *)
Definition parse (req : Request) (cmdline : list string) (root : Command)
  : res Request :=
  optDefs ← lift (GetOptions root []);
  s ← parseLoop (length cmdline) root (parseStart cmdline root optDefs);
  Ok {| req_Root := Some root; req_Command := Some (cmd s); req_Path := path s;
        req_Arguments := args s; req_Options := opts s; req_Files := req_Files req |}.

(** ** Runtime options read from the request *)

Definition isHidden (req : Request) : bool :=
  match req_Options req !! Hidden with
  | Some (VBool h) => h
  | _ => false
  end.

Definition isRecursive (req : Request) : bool :=
  match req_Options req !! RecLong with
  | Some (VBool rec) => rec
  | _ => false
  end.

Definition stdinName (req : Request) : string :=
  match req_Options req !! StdinName with
  | Some (VString name) => name
  | _ => ""
  end.

(** ** Files *)

Definition isURL (path : string) : option URL :=
  match url_Parse path with
  | inl _ => None
  | inr u =>
      if bool_decide (Host u = "") then None
      else if bool_decide (Scheme u = "http") || bool_decide (Scheme u = "https")
           then Some u
           else None
  end.

Definition appendFile (fpath : string) (argDef : Argument) (recursive hidden : bool)
  : res Node :=
  stat ← lift (os_Lstat fpath);
  if IsDir stat then
    if negb (Recursive argDef) then
      Fail (ErrDirNotSupported fpath (ArgName argDef))
    else if negb recursive then
      Fail (ErrNotRecursive fpath RecShort)
    else lift (NewSerialFile fpath hidden stat)
  else lift (NewSerialFile fpath hidden stat).

(** [f.Stat()] of a nil file answers [os.ErrInvalid]. *)
Definition isTty (f : option File) : res bool :=
  match f with
  | None => Fail ErrInvalid
  | Some f =>
      fInfo ← lift (FileStat f);
      Ok (ModeCharDevice fInfo)
  end.

(** [fmt.Sprintf(msgStdinInfo, name)] *)
Definition msgStdinInfo (name : string) : string :=
  if IsWindows then "ipfs: Reading from " +:+ name +:+ "; send Ctrl-z to stop."
  else "ipfs: Reading from " +:+ name +:+ "; send Ctrl-d to stop.".

Definition newMessageReader (r : File) (msg : string) : Reader :=
  messageReader r false msg.

(** [(r *messageReader) Read]: the reader after the call, what standard
    error holds after it (line by line), and the file whose [Read] gives
    the answer.  A plain file is its own reader and prints nothing. *)
Definition Read (r : Reader) (stderr : list string) : Reader * list string * File :=
  match r with
  | fileReader f => (fileReader f, stderr, f)
  | messageReader f done message =>
      if negb done then (messageReader f true message, stderr ++ [message], f)
      else (messageReader f done message, stderr, f)
  end.

(** [(r *messageReader) Close]: the file that is closed. *)
Definition Close (r : Reader) : File :=
  match r with
  | fileReader f => f
  | messageReader f _ _ => f
  end.

Definition maybeWrapStdin (f : option File) : res Reader :=
  tty ← isTty f;
  f ← deref f;
  if (tty : bool) then Ok (newMessageReader f (msgStdinInfo (FileName f)))
  else Ok (fileReader f).

(** ** Argument distribution *)

(** [i] is never negative. *)
Definition getArgDef (i : Z) (argDefs : list Argument) : option Argument :=
  if bool_decide (i < Z.of_nat (length argDefs))%Z then argDefs !! Z.to_nat i
  else if bool_decide (0 < length argDefs) then argDefs !! (length argDefs - 1)
  else None.

(** The variables of [parseArgs] that its loop changes. *)
Record argsVars : Type := {
  inputs : list string;
  stringArgs : list string;
  fileArgs : gmap string Node;
  iArgDef : Z;
  remRequired : Z;
  stdin : option File
}.

(** [for remInputs <= remRequired && !argDef.Required { iArgDef++; ... }]:
    the index at which the loop stops.  It steps over slots only, so as
    many turns as there are slots are enough ([skipOptional_returns]). *)
Fixpoint skipOptional (fuel : nat) (argDefs : list Argument)
    (remInputs remRequired iArgDef : Z) : res Z :=
  if bool_decide (remInputs ≤ remRequired)%Z then
    argDef ← deref (getArgDef iArgDef argDefs);
    if negb (Required argDef) then
      match fuel with
      | O => Abort
      | S fuel => skipOptional fuel argDefs remInputs remRequired (iArgDef + 1)
      end
    else Ok iArgDef
  else Ok iArgDef.

(** The value of a file slot that has an input: the key and the node. *)
Definition resolveFile (req : Request) (argDef : Argument) (stdin : option File)
    (fpath : string) : res (string * Node) :=
  if bool_decide (fpath = "-") then
    r ← maybeWrapStdin stdin;
    let fpath := stdinName req in
    f ← deref stdin;
    file ← lift (NewReaderPathFile (FileName f) r);
    Ok (fpath, file)
  else
    match isURL fpath with
    | Some u => Ok (fpath, NewWebFile u)
    | None =>
        let fpath := filepath_ToSlash (filepath_Clean fpath) in
        let derefArgs :=
          match req_Options req !! DerefLong with
          | Some (VBool b) => b
          | _ => false
          end in
        fpath ←
          (if bool_decide (fpath = ".") then
             cwd ← lift os_Getwd;
             lift (filepath_EvalSymlinks (filepath_ToSlash cwd))
           else if derefArgs then lift (filepath_EvalSymlinks fpath)
           else Ok fpath);
        nf ← appendFile fpath argDef (isRecursive req) (isHidden req);
        Ok (path_Base fpath, nf)
    end.

(** [case cmdkit.ArgString]: the inputs left, the strings, the files and
    the stdin handle after the slot is filled. *)
Definition fillString (argDef : Argument) (fillingVariadic : bool) (v : argsVars)
  : res (list string * list string * gmap string Node * option File) :=
  match inputs v with
  | input :: inputs => Ok (inputs, stringArgs v ++ [input], fileArgs v, stdin v)
  | [] =>
      if bool_decide (is_Some (stdin v)) && SupportsStdin argDef
         && negb fillingVariadic then
        match maybeWrapStdin (stdin v) with
        | Ok r =>
            f ← deref (stdin v);
            file ← lift (NewReaderPathFile (FileName f) r);
            Ok ([], stringArgs v, <["stdin" := file]> (fileArgs v), None)
        | Fail _ => Ok ([], stringArgs v, fileArgs v, stdin v)
        | Abort => Abort
        end
      else Ok ([], stringArgs v, fileArgs v, stdin v)
  end.

(** [case cmdkit.ArgFile] *)
Definition fillFile (req : Request) (argDef : Argument) (fillingVariadic : bool)
    (v : argsVars)
  : res (list string * list string * gmap string Node * option File) :=
  match inputs v with
  | fpath :: inputs =>
      (* treat stringArg values as file paths *)
      '(fpath, file) ← resolveFile req argDef (stdin v) fpath;
      Ok (inputs, stringArgs v, <[fpath := file]> (fileArgs v), stdin v)
  | [] =>
      if bool_decide (is_Some (stdin v)) && SupportsStdin argDef
         && Required argDef && negb fillingVariadic then
        r ← maybeWrapStdin (stdin v);
        f ← deref (stdin v);
        file ← lift (NewReaderPathFile (FileName f) r);
        Ok ([], stringArgs v, <[stdinName req := file]> (fileArgs v), stdin v)
      else Ok ([], stringArgs v, fileArgs v, stdin v)
  end.

(** One turn of [for iInput := 0; iInput < numInputs; iInput++], with
    [remInputs = numInputs - iInput]. *)
Definition argsTurn (req : Request) (argDefs : list Argument) (remInputs : Z)
    (v : argsVars) : res argsVars :=
  (* skip optional argument definitions if there aren't sufficient
     remaining inputs *)
  iArgDef ← skipOptional (length argDefs) argDefs remInputs (remRequired v) (iArgDef v);
  argDef ← deref (getArgDef iArgDef argDefs);
  let remRequired := if Required argDef then (remRequired v - 1)%Z else remRequired v in
  let fillingVariadic := bool_decide (Z.of_nat (length argDefs) < iArgDef + 1)%Z in
  '(inputs, stringArgs, fileArgs, stdin) ←
    match ArgType argDef with
    | ArgString => fillString argDef fillingVariadic v
    | ArgFile => fillFile req argDef fillingVariadic v
    end;
  Ok {| inputs := inputs; stringArgs := stringArgs; fileArgs := fileArgs;
        iArgDef := iArgDef + 1; remRequired := remRequired; stdin := stdin |}.

(** The loop over the inputs; [remInputs] turns are left. *)
Fixpoint argsLoop (remInputs : nat) (req : Request) (argDefs : list Argument)
    (v : argsVars) : res argsVars :=
  match remInputs with
  | O => Ok v
  | S n =>
      v ← argsTurn req argDefs (Z.of_nat remInputs) v;
      argsLoop n req argDefs v
  end.

(** [len(argDefs) > 0 && argDefs[len(argDefs)-1].f] *)
Definition lastArgDefHas (f : Argument -> bool) (argDefs : list Argument) : bool :=
  match last argDefs with
  | Some argDef => f argDef
  | None => false
  end.

(** The index after the loop: a last slot that supports stdin is
    handled at run time, [pretend it's there]. *)
Definition pretendStdin (argDefs : list Argument) (v : argsVars) : Z :=
  if bool_decide (iArgDef v = Z.of_nat (length argDefs) - 1)%Z
     && bool_decide (is_Some (stdin v))
     && match argDefs !! Z.to_nat (iArgDef v) with
        | Some argDef => SupportsStdin argDef
        | None => false
        end
  then (iArgDef v + 1)%Z
  else iArgDef v.

(** The first required slot from index [iArgDef] on. *)
Definition missingRequired (argDefs : list Argument) (iArgDef : Z) : option Argument :=
  if bool_decide (iArgDef < Z.of_nat (length argDefs))%Z then
    List.find Required (drop (Z.to_nat iArgDef) argDefs)
  else None.

Definition argsStart (argDefs : list Argument) (inputs : list string)
    (stdin : option File) : argsVars :=
  {| inputs := inputs; stringArgs := []; fileArgs := ∅; iArgDef := 0;
     remRequired := Z.of_nat (length (List.filter Required argDefs));
     stdin := stdin |}.

(** The number of values provided by the user; standard input counts as
    one when the last slot supports it. *)
Definition numInputs (argDefs : list Argument) (inputs : list string)
    (stdin : option File) : nat :=
  if lastArgDefHas SupportsStdin argDefs && bool_decide (is_Some stdin)
  then length inputs + 1
  else length inputs.

(** [len(argDefs) == 0 || !argDefs[len(argDefs)-1].Variadic] *)
Definition notVariadic (argDefs : list Argument) : bool :=
  bool_decide (length argDefs = 0) || negb (lastArgDefHas Variadic argDefs).

(** [parseArgs]: the request is written only after the last check, just
    before [return nil]. *)
Definition parseArgs (req : Request) (root : Command) (stdin : option File)
  : res Request :=
  c ← deref (req_Command req);
  let argDefs := Arguments c in
  let inputs := req_Arguments req in
  (* if we have more arg values provided than argument definitions, and
     the last arg definition is not variadic (or there are no
     definitions), return an error *)
  if notVariadic argDefs && bool_decide (length argDefs < length inputs) then
    Fail (printSuggestions inputs root)
  else
    v ← argsLoop (numInputs argDefs inputs stdin) req argDefs
          (argsStart argDefs inputs stdin);
    let iArgDef := pretendStdin argDefs v in
    (* check to make sure we didn't miss any required arguments *)
    match missingRequired argDefs iArgDef with
    | Some argDef => Fail (ErrArgRequired (ArgName argDef))
    | None =>
        Ok {| req_Root := req_Root req; req_Command := req_Command req;
              req_Path := req_Path req; req_Arguments := stringArgs v;
              req_Options := req_Options req;
              req_Files := if bool_decide (0 < size (fileArgs v))
                           then Some (fileArgs v) else req_Files req |}
    end.

(** ** Parse *)

(** The "ugly hack" of [Parse]: these two invocations never read
    standard input. *)
Definition bootstrapNoStdin (req : Request) : bool :=
  bool_decide (length (req_Path req) = 2)
  && bool_decide (req_Path req !! 0 = Some "bootstrap")
  && (bool_decide (req_Path req !! 1 = Some "add")
        && bool_decide (req_Options req !! "default" = Some (VBool true))
      || bool_decide (req_Path req !! 1 = Some "rm")
           && bool_decide (req_Options req !! "all" = Some (VBool true))).

(** [req.Command.Encoders != nil && req.Command.Encoders[cmds.Text] != nil] *)
Definition hasTextEncoder (c : Command) : bool :=
  match Encoders c with
  | Some encoders => bool_decide (encoders !! Text = Some true)
  | None => false
  end.

(** If no encoding was specified, default to plaintext encoding; if the
    command doesn't support plaintext, use JSON instead. *)
Definition defaultEncoding (req : Request) : res Request :=
  if bool_decide (req_Options req !! EncLong = Some (VString "")) then
    c ← deref (req_Command req);
    if hasTextEncoder c then Ok (SetOption req EncLong (VEncodingType Text))
    else Ok (SetOption req EncLong (VEncodingType JSON))
  else Ok req.

(** [Parse]: the request and the error it returns, or [None] where it
    would not return. *)
Definition Parse (input : list string) (stdin : option File) (root : Command)
  : option (Request * option Err) :=
  let req := newRequest in
  match parse req input root with
  | Abort => None
  | Fail err => Some (req, Some err)
  | Ok req =>
      match FillDefaults req with
      | (req, Some err) => Some (req, Some err)
      | (req, None) =>
          let stdin := if bootstrapNoStdin req then None else stdin in
          match parseArgs req root stdin with
          | Abort => None
          | Fail err => Some (req, Some err)
          | Ok req =>
              match defaultEncoding req with
              | Ok req => Some (req, None)
              | _ => None
              end
          end
      end
  end.

End Parser.

(** ** A small command tree

    Concrete options, commands and collaborators, on which the properties
    below are exercised. *)

Definition stringOption (name : string) (aliases : list string) : Option :=
  {| OptName := name; OptAliases := aliases; OptType := cmdkit.String;
     OptParse := λ s, inr (VString s) |}.

Definition boolOption (name : string) (aliases : list string) : Option :=
  {| OptName := name; OptAliases := aliases; OptType := cmdkit.Bool;
     OptParse := λ s,
       if bool_decide (s = "true") then inr (VBool true)
       else if bool_decide (s = "false") then inr (VBool false)
       else inl (ErrForeign "not a boolean") |}.

(** The option table of a list of options: every name maps to its option. *)
Definition optionTable (l : list Option) : gmap string Option :=
  foldr (λ o m, foldr (λ n m, <[n := o]> m) m (OptNames o)) ∅ l.

Definition demoOptions : gmap string Option :=
  optionTable [stringOption "encoding" ["enc"]; boolOption "recursive" ["r"];
               boolOption "x" []; stringOption "name" ["n"];
               boolOption "default" []].

Definition setOption (req : Request) (name : string) (v : value) : Request :=
  {| req_Root := req_Root req; req_Command := req_Command req;
     req_Path := req_Path req; req_Arguments := req_Arguments req;
     req_Options := <[name := v]> (req_Options req); req_Files := req_Files req |}.

(** Every path shows the same options; no defaults; a filesystem whose
    only directory is ["dir"]. *)
Definition demoEnv : Env :=
  {| GetOptions := λ _ _, inr demoOptions;
     FillDefaults := λ req, (req, None);
     SetOption := setOption;
     EncLong := "encoding"; RecLong := "recursive"; RecShort := "r";
     Hidden := "hidden"; StdinName := "stdin-name"; DerefLong := "dereference-args";
     Text := "text"; JSON := "json";
     IsWindows := false;
     url_Parse := λ _, inl (ErrForeign "not a URL");
     filepath_Clean := id; filepath_ToSlash := id; path_Base := id;
     os_Getwd := inr "/";
     filepath_EvalSymlinks := λ p, inr p;
     os_Lstat := λ p, inr {| IsDir := bool_decide (p = "dir"); ModeCharDevice := false |} |}.

Definition slot (name : string) (type : ArgumentType)
    (required variadic supportsStdin recursive : bool) : Argument :=
  {| ArgName := name; ArgType := type; Required := required; Variadic := variadic;
     SupportsStdin := supportsStdin; Recursive := recursive |}.

(** [cat <first> [<more>...]]: a required string slot, then an optional
    variadic one; the command has a text encoder. *)
Definition catCmd : Command :=
  mkCommand ∅ [slot "first" ArgString true false false false;
               slot "more" ArgString false true false false] false
    (Some {["text" := true]}).

(** [pair <key> <data>]: two required string slots, the last of which
    supports standard input. *)
Definition pairCmd : Command :=
  mkCommand ∅ [slot "key" ArgString true false false false;
               slot "data" ArgString true false true false] false None.

(** [add <file>]: a required file slot that accepts directories. *)
Definition addCmd : Command :=
  mkCommand ∅ [slot "file" ArgFile true false true true] false None.

Definition bootstrapAddCmd : Command :=
  mkCommand ∅ [slot "peer" ArgString false true true false] false None.

Definition bootstrapCmd : Command :=
  mkCommand {["add" := bootstrapAddCmd]} [] false None.

Definition demoRoot : Command :=
  mkCommand
    (<["cat" := catCmd]> (<["pair" := pairCmd]> (<["add" := addCmd]>
      {["bootstrap" := bootstrapCmd]})))
    [] false None.

(** A root with an external child [plugin]. *)
Definition pluginCmd : Command := mkCommand ∅ [] true None.

Definition toolRoot : Command :=
  mkCommand (<["plugin" := pluginCmd]> {["cat" := catCmd]}) [] false None.

(** A terminal as standard input. *)
Definition terminal : File :=
  {| FileName := "/dev/tty";
     FileStat := inr {| IsDir := false; ModeCharDevice := true |} |}.

Definition pipe : File :=
  {| FileName := "/dev/stdin";
     FileStat := inr {| IsDir := false; ModeCharDevice := false |} |}.

(** A request as [parse] leaves it. *)
Definition requestOf (c : Command) (path inputs : list string)
    (options : gmap string value) : Request :=
  {| req_Root := Some demoRoot; req_Command := Some c; req_Path := path;
     req_Arguments := inputs; req_Options := options; req_Files := None |}.

(** ** Notions used in the properties *)

(** The request with other positional tokens. *)
Definition withArguments (req : Request) (inputs : list string) : Request :=
  {| req_Root := req_Root req; req_Command := req_Command req;
     req_Path := req_Path req; req_Arguments := inputs;
     req_Options := req_Options req; req_Files := req_Files req |}.

(** A node over standard input. *)
Definition isStream (n : Node) : Prop :=
  match n with
  | ReaderFile _ _ => True
  | _ => False
  end.

(** The loop over the inputs ended without a stdin handle and without a
    stream node among the files. *)
Definition noStdinUsed (r : res argsVars) : Prop :=
  match r with
  | Ok v => stdin v = None ∧ ∀ key n, fileArgs v !! key = Some n → ¬ isStream n
  | _ => True
  end.

(** The same cursor over a command line with more tokens after it. *)
Definition extendState (more : list string) (st : parseState) : parseState :=
  {| cmdline := cmdline st ++ more; i := i st |}.

Definition withState (s : parseVars) (st' : parseState) : parseVars :=
  {| path := path s; args := args s; opts := opts s; cmd := cmd s;
     optDefs := optDefs s; st := st' |}.

Definition extendVars (more : list string) (s : parseVars) : parseVars :=
  withState s (extendState more (st s)).

(** Every key that the short-option parser yields is in the table. *)
Definition knownKeys (optDefs : gmap string Option) (kvs : list kv) : Prop :=
  Forall (λ kv, is_Some (optDefs !! Key kv)) kvs.

(** The number of required slots from index [n] on. *)
Definition requiredFrom (n : nat) (argDefs : list Argument) : Z :=
  Z.of_nat (length (List.filter Required (drop n argDefs))).

(** What the loop over the inputs keeps true of its variables. *)
Definition argsInv (argDefs : list Argument) (v : argsVars) : Prop :=
  (0 ≤ iArgDef v)%Z
  ∧ (remRequired v ≤ requiredFrom (Z.to_nat (iArgDef v)) argDefs)%Z.

(** A string without the byte ["="]. *)
Definition noEq (s : string) : Prop := ¬ In "="%char (String.list_ascii_of_string s).

(** The flags of a token of short options, one string per byte. *)
Fixpoint flagsOf (ks : string) : list string :=
  match ks with
  | EmptyString => []
  | String.String c rest => String.String c EmptyString :: flagsOf rest
  end.

(** The command that a path leads to, child by child. *)
Fixpoint resolve (c : Command) (path : list string) : option Command :=
  match path with
  | [] => Some c
  | name :: path =>
      match Subcommands c !! name with
      | Some sub => resolve sub path
      | None => None
      end
  end.

(** What a turn of the loop of [parse] at the token [param] can be: the
    terminator, an option token, a child that is entered, an external
    child, or a positional argument below the root. *)
Inductive turnKind (s : parseVars) (param : string) : turn → Prop :=
| turn_terminator :
    param = "--" →
    turnKind s param
      (BreakL {| path := path s;
                 args := args s ++ drop (i (st s) + 1) (cmdline (st s));
                 opts := opts s; cmd := cmd s; optDefs := optDefs s; st := st s |})
| turn_option t :
    path t = path s → args t = args s → cmd t = cmd s → optDefs t = optDefs s →
    turnKind s param (Next t)
| turn_child sub table :
    Subcommands (cmd s) !! param = Some sub → External sub = false →
    turnKind s param
      (Next {| path := path s ++ [param]; args := args s; opts := opts s;
               cmd := sub; optDefs := table; st := st s |})
| turn_external sub table :
    Subcommands (cmd s) !! param = Some sub → External sub = true →
    turnKind s param
      (BreakL {| path := path s ++ [param];
                 args := args s ++ drop (i (st s) + 1) (cmdline (st s));
                 opts := opts s; cmd := sub; optDefs := table; st := st s |})
| turn_positional :
    Subcommands (cmd s) !! param = None → path s ≠ [] →
    turnKind s param
      (Next {| path := path s; args := args s ++ [param]; opts := opts s;
               cmd := cmd s; optDefs := optDefs s; st := st s |}).

(** [n] calls of [Read] in a row: the reader and standard error after
    them. *)
Fixpoint reads (n : nat) (r : Reader) (stderr : list string) : Reader * list string :=
  match n with
  | O => (r, stderr)
  | S n => let '(r, stderr, _) := Read r stderr in reads n r stderr
  end.

(** What the loop keeps when all slots are strings and there is no stdin
    handle, with [n] turns to go. *)
Definition stringsInv (argDefs : list Argument) (n : nat) (v : argsVars) : Prop :=
  stdin v = None ∧ fileArgs v = ∅ ∧ argsInv argDefs v
  ∧ (remRequired v ≤ Z.of_nat n)%Z
  ∧ (Z.of_nat (length argDefs) ≤ iArgDef v
     ∨ requiredFrom (Z.to_nat (iArgDef v)) argDefs ≤ remRequired v)%Z.

(** * Properties *)

(** Unfold the binds of [res] without touching the functions under them. *)
Ltac unbind := unfold mbind, res_bind, lift, deref; cbn beta iota.

(** ** Duplicate options *)

(** C1 (the code departs from the claim).  The option ["encoding"] has the
    alias ["enc"].  With the two long tokens [--encoding=json --enc=text],
    [parse] looks the alias ["enc"] up among the values set so far, where
    only canonical names are stored, finds nothing and overwrites the first
    value: it returns no error and the option holds ["text"].  The
    short-option path converts the key to the canonical name before the
    look-up: [--name=a -n b] fails with "multiple values for option". *)
Theorem parse_long_alias_overwrites :
  @parse demoEnv newRequest ["--encoding=json"; "--enc=text"] demoRoot
  = Ok {| req_Root := Some demoRoot; req_Command := Some demoRoot;
          req_Path := []; req_Arguments := [];
          req_Options := {["encoding" := VString "text"]}; req_Files := None |}
  ∧ @parse demoEnv newRequest ["--name=a"; "-n"; "b"] demoRoot
    = Fail (ErrMultipleValues "name").
Proof. split; vm_compute; reflexivity. Qed.

(** ** The request returned with an error *)

(** C3, as stated, fails.  In [cat --bogus] the token [cat] resolves a
    sub-command before the unknown option is met, yet the request that
    [Parse] returns with the error has neither the path nor the command:
    [parse] writes the request only when it succeeds. *)
Lemma Parse_error_forgets_path :
  ¬ (∀ req e,
       @Parse demoEnv ["cat"; "--bogus"] None demoRoot = Some (req, Some e) →
       req_Path req = ["cat"] ∧ req_Command req = Some catCmd).
Proof.
  intros H.
  destruct (H newRequest (ErrUnknownOption "bogus")) as [Hpath _].
  - vm_compute. reflexivity.
  - discriminate Hpath.
Qed.

(** ** The terminator [--] *)

(** C2, as stated, fails.  In [--name -- -x] the option [name] takes a
    value, and the value it takes is the token [--]; the token [-x] after
    it is then parsed as an option, not appended to the positional
    arguments.  There is no external command in this tree. *)
Lemma double_dash_taken_as_value :
  ¬ (∀ req, @parse demoEnv newRequest ["--name"; "--"; "-x"] demoRoot = Ok req →
       ∃ before, req_Arguments req = before ++ ["-x"]).
Proof.
  intros H.
  destruct (H (requestOf demoRoot [] [] {["name" := VString "--"; "x" := VBool true]}))
    as [before Hbefore].
  - vm_compute. reflexivity.
  - by destruct before.
Qed.

Section Facts.
Context `{E : Env}.

(** C3, amended.  Whenever [Parse] returns an error it returns a request
    with it.  If the error comes from option and sub-command parsing, the
    request is the fresh one: nothing of what was accumulated is in it.
    If it comes from filling in the defaults, the request is as that call
    left it.  If it comes from argument distribution, the request is the
    one that the earlier stages produced (root, command, path, options
    and the positional tokens as collected, not yet distributed). *)
Theorem Parse_error_request input stdin root req e :
  Parse input stdin root = Some (req, Some e) →
  (parse newRequest input root = Fail e ∧ req = newRequest)
  ∨ (∃ req1, parse newRequest input root = Ok req1
       ∧ (FillDefaults req1 = (req, Some e)
          ∨ (FillDefaults req1 = (req, None)
             ∧ parseArgs req root (if bootstrapNoStdin req then None else stdin)
               = Fail e))).
Proof.
  unfold Parse.
  destruct (parse newRequest input root) as [req1|e1|] eqn:Hparse; [|naive_solver..].
  destruct (FillDefaults req1) as [req2 [e2|]] eqn:Hfill; [naive_solver|].
  destruct (parseArgs req2 root _) as [req3|e3|] eqn:Hargs; [|naive_solver..].
  destruct (defaultEncoding req3); naive_solver.
Qed.

(** ** Too many positional tokens *)

(** C5.  More positional tokens than slots, and a last slot that is not
    variadic (or no slot at all): [parseArgs] returns the
    unrecognized-command error with the tokens and the root, whatever the
    standard input and the collaborators are; no slot is visited. *)
Theorem parseArgs_too_many req root stdin c :
  req_Command req = Some c →
  length (Arguments c) < length (req_Arguments req) →
  (Arguments c = [] ∨ ∃ argDef, last (Arguments c) = Some argDef ∧ Variadic argDef = false) →
  parseArgs req root stdin = Fail (ErrSuggestions (req_Arguments req) root).
Proof.
  intros Hc Hlen Hlast. unfold parseArgs. rewrite Hc. simpl.
  assert (notVariadic (Arguments c) = true) as ->.
  { unfold notVariadic, lastArgDefHas.
    destruct Hlast as [-> | (argDef & -> & ->)]; [done|].
    by rewrite orb_true_r. }
  by rewrite bool_decide_true.
Qed.

(** ** Directories *)

(** C8.  A path that [os.Lstat] reports as a directory: refused when the
    slot is not recursive; refused when the slot is recursive but the
    recursion option of the request is not [true] ([isRecursive]);
    resolved to a directory-tree node when both hold. *)
Theorem appendFile_directory fpath argDef req hidden stat :
  os_Lstat fpath = inr stat →
  IsDir stat = true →
  appendFile fpath argDef (isRecursive req) hidden
  = if negb (Recursive argDef) then
      Fail (ErrDirNotSupported fpath (ArgName argDef))
    else if negb (isRecursive req) then
      Fail (ErrNotRecursive fpath RecShort)
    else Ok (DirectoryTree fpath hidden stat).
Proof.
  intros Hstat Hdir. unfold appendFile, NewSerialFile.
  rewrite Hstat. simpl. rewrite Hdir.
  by destruct (Recursive argDef), (isRecursive req).
Qed.

(** ** Argument distribution *)

(** C7.  A required string slot followed by an optional variadic string
    slot, with no standard input: the variadic slot does not support it,
    or there is no stdin handle.  One token: the loop takes one
    turn, on slot 0, and stops with the index at slot 1, which is never
    visited; the positional strings are that token.  Three tokens: the
    loop takes three turns, on slot 0, on slot 1 and, the index being past
    the end, on the last slot again; the positional strings are the three
    tokens in order.  No error, and no file node, in either case. *)
Theorem parseArgs_required_then_variadic req root stdin0 c first more x y z :
  req_Command req = Some c →
  Arguments c = [first; more] →
  ArgType first = ArgString → Required first = true →
  ArgType more = ArgString → Required more = false →
  Variadic more = true →
  SupportsStdin more = false ∨ stdin0 = None →
  argsLoop (numInputs [first; more] [x] stdin0) (withArguments req [x]) [first; more]
    (argsStart [first; more] [x] stdin0)
  = Ok {| inputs := []; stringArgs := [x]; fileArgs := ∅; iArgDef := 1;
          remRequired := 0; stdin := stdin0 |}
  ∧ parseArgs (withArguments req [x]) root stdin0 = Ok (withArguments req [x])
  ∧ argsLoop (numInputs [first; more] [x; y; z] stdin0) (withArguments req [x; y; z])
      [first; more] (argsStart [first; more] [x; y; z] stdin0)
    = Ok {| inputs := []; stringArgs := [x; y; z]; fileArgs := ∅; iArgDef := 3;
            remRequired := 0; stdin := stdin0 |}
  ∧ parseArgs (withArguments req [x; y; z]) root stdin0
    = Ok (withArguments req [x; y; z]).
Proof.
  intros Hc Hargs Ht1 Hr1 Ht2 Hr2 Hv2 Hs2.
  destruct first as [n1 t1 r1 v1 s1 c1], more as [n2 t2 r2 v2 s2 c2].
  destruct req as [rt cm pth inp options fls].
  simpl in Hc, Ht1, Hr1, Ht2, Hr2, Hv2, Hs2. subst.
  unfold parseArgs, withArguments. cbn [req_Command req_Arguments]. unbind.
  rewrite Hargs.
  destruct Hs2 as [-> | ->]; [destruct stdin0 | destruct s2];
    repeat split; vm_compute; reflexivity.
Qed.

(** C4.  After the loop over the inputs: if the index stands on the last
    slot, the stdin handle is still there and that slot supports standard
    input, the index moves past the slot, no slot is left to be checked,
    and [parseArgs] returns without an "argument required" error. *)
Theorem parseArgs_pretends_stdin req root stdin0 c v argDef :
  req_Command req = Some c →
  notVariadic (Arguments c)
    && bool_decide (length (Arguments c) < length (req_Arguments req)) = false →
  argsLoop (numInputs (Arguments c) (req_Arguments req) stdin0) req (Arguments c)
    (argsStart (Arguments c) (req_Arguments req) stdin0) = Ok v →
  iArgDef v = (Z.of_nat (length (Arguments c)) - 1)%Z →
  is_Some (stdin v) →
  Arguments c !! Z.to_nat (iArgDef v) = Some argDef →
  SupportsStdin argDef = true →
  pretendStdin (Arguments c) v = Z.of_nat (length (Arguments c))
  ∧ missingRequired (Arguments c) (pretendStdin (Arguments c) v) = None
  ∧ parseArgs req root stdin0
    = Ok {| req_Root := req_Root req; req_Command := req_Command req;
            req_Path := req_Path req; req_Arguments := stringArgs v;
            req_Options := req_Options req;
            req_Files := if bool_decide (0 < size (fileArgs v))
                         then Some (fileArgs v) else req_Files req |}.
Proof.
  intros Hc Hmany Hloop Hidx Hstdin Hslot Hsup.
  assert (pretendStdin (Arguments c) v = Z.of_nat (length (Arguments c))) as Hpretend.
  { unfold pretendStdin. rewrite Hslot, Hsup.
    rewrite !bool_decide_true by done. simpl. lia. }
  assert (missingRequired (Arguments c) (pretendStdin (Arguments c) v) = None) as Hnone.
  { rewrite Hpretend. unfold missingRequired. by rewrite bool_decide_false by lia. }
  repeat split; [done..|].
  unfold parseArgs. rewrite Hc. unbind. rewrite Hmany, Hloop. unbind.
  by rewrite Hnone.
Qed.

(** ** Standard input and the encoding in [Parse] *)

Lemma resolveFile_without_stdin req argDef fpath key n :
  resolveFile req argDef None fpath = Ok (key, n) → ¬ isStream n.
Proof.
  unfold resolveFile. case_bool_decide; [by unfold maybeWrapStdin, isTty|].
  destruct (isURL fpath) as [u|]; [intros [= ? <-]; cbv; tauto|].
  assert (∀ p, appendFile p argDef (isRecursive req) (isHidden req)
               ≫= (λ nf, Ok (path_Base p, nf)) = Ok (key, n) → ¬ isStream n) as Happend.
  { intros p. unfold appendFile, NewSerialFile.
    destruct (os_Lstat p) as [e|stat]; unbind; [done|].
    destruct (IsDir stat), (negb (Recursive argDef)), (negb (isRecursive req));
      unbind; try done; intros [= ? <-]; cbv; tauto. }
  case_bool_decide.
  - destruct os_Getwd as [e|cwd]; unbind; [done|].
    destruct (filepath_EvalSymlinks _) as [e|p]; unbind; [done|]. apply Happend.
  - destruct (match req_Options req !! DerefLong with Some (VBool b) => b | _ => false end).
    + destruct (filepath_EvalSymlinks _) as [e|p]; unbind; [done|]. apply Happend.
    + unbind. apply Happend.
Qed.

Lemma argsTurn_without_stdin req argDefs remInputs v v' :
  noStdinUsed (Ok v) → argsTurn req argDefs remInputs v = Ok v' → noStdinUsed (Ok v').
Proof.
  intros [Hstdin Hfiles]. unfold argsTurn.
  destruct (skipOptional _ _ _ _ _) as [j| |]; unbind; [|done..].
  destruct (getArgDef j argDefs) as [argDef|]; [|done].
  destruct (ArgType argDef).
  - unfold fillString. rewrite Hstdin.
    destruct (inputs v); simpl; by intros [= <-].
  - unfold fillFile. rewrite Hstdin.
    destruct (inputs v) as [|fpath rest]; simpl; [by intros [= <-]|].
    destruct (resolveFile req argDef None fpath) as [[key n]| |] eqn:Hres;
      unbind; [|done..].
    intros [= <-]. split; [done|]. simpl. intros key' n'.
    rewrite lookup_insert. case_decide; [|by apply Hfiles].
    intros [= <-]. by eapply resolveFile_without_stdin.
Qed.

Lemma argsLoop_without_stdin req argDefs n v :
  noStdinUsed (Ok v) → noStdinUsed (argsLoop n req argDefs v).
Proof.
  revert v. induction n as [|n IH]; intros v Hv; [done|].
  cbn [argsLoop]. destruct (argsTurn req argDefs _ v) as [v'| |] eqn:Hturn; [|done..].
  unbind. apply IH. by eapply argsTurn_without_stdin.
Qed.

(** C9.  [bootstrap add] with [default] set to [true], or [bootstrap rm]
    with [all] set to [true]: [Parse] hands no stdin handle to the
    argument distribution, so it returns what it returns without standard
    input, and the distribution ends with no stream node among the files,
    whatever the slots of the command are. *)
Theorem Parse_bootstrap_discards_stdin input stdin0 root req1 req2 c :
  parse newRequest input root = Ok req1 →
  FillDefaults req1 = (req2, None) →
  req_Command req2 = Some c →
  (req_Path req2 = ["bootstrap"; "add"]
     ∧ req_Options req2 !! "default" = Some (VBool true))
  ∨ (req_Path req2 = ["bootstrap"; "rm"]
       ∧ req_Options req2 !! "all" = Some (VBool true)) →
  (if bootstrapNoStdin req2 then None else stdin0) = None
  ∧ Parse input stdin0 root = Parse input None root
  ∧ noStdinUsed (argsLoop (numInputs (Arguments c) (req_Arguments req2) None) req2
                   (Arguments c) (argsStart (Arguments c) (req_Arguments req2) None)).
Proof.
  intros Hparse Hfill Hc Hhack.
  assert (bootstrapNoStdin req2 = true) as Hno.
  { unfold bootstrapNoStdin.
    destruct Hhack as [[-> ->] | [-> ->]]; simpl;
      rewrite ?bool_decide_true by done; simpl; by rewrite ?orb_true_r. }
  split; [by rewrite Hno|]. split.
  - unfold Parse. rewrite Hparse, Hfill, Hno. done.
  - by apply argsLoop_without_stdin.
Qed.

(** [parseArgs] changes the positional strings and the files only. *)
Lemma parseArgs_keeps req root stdin0 req' :
  parseArgs req root stdin0 = Ok req' →
  is_Some (req_Command req')
  ∧ req_Root req' = req_Root req ∧ req_Command req' = req_Command req
  ∧ req_Path req' = req_Path req ∧ req_Options req' = req_Options req.
Proof.
  unfold parseArgs. destruct (req_Command req) as [c|] eqn:Hc; unbind; [|done].
  destruct (_ && _); [done|].
  destruct (argsLoop _ _ _ _) as [v| |]; unbind; [|done..].
  destruct (missingRequired _ _); [done|].
  intros [= <-]. simpl. eauto.
Qed.

(** C10.  When [Parse] succeeds, the request that leaves the argument
    distribution is returned with its encoding option set to the text
    encoding, if that option holds the empty string and the command has a
    text encoder; set to the JSON encoding, if it holds the empty string
    and the command has none; and returned as it is otherwise, that is
    also when the option is not set at all. *)
Theorem Parse_default_encoding input stdin0 root req1 req2 req3 :
  parse newRequest input root = Ok req1 →
  FillDefaults req1 = (req2, None) →
  parseArgs req2 root (if bootstrapNoStdin req2 then None else stdin0) = Ok req3 →
  ∃ c, req_Command req3 = Some c
    ∧ Parse input stdin0 root
      = Some (match req_Options req3 !! EncLong with
              | Some (VString EmptyString) =>
                  if hasTextEncoder c then SetOption req3 EncLong (VEncodingType Text)
                  else SetOption req3 EncLong (VEncodingType JSON)
              | _ => req3
              end, None).
Proof.
  intros Hparse Hfill Hargs.
  destruct (parseArgs_keeps _ _ _ _ Hargs) as ([c Hc] & _).
  exists c. split; [done|].
  unfold Parse. rewrite Hparse, Hfill, Hargs. unfold defaultEncoding.
  case_bool_decide as Henc.
  - rewrite Henc, Hc. unbind. by destruct (hasTextEncoder c).
  - destruct (req_Options req3 !! EncLong) as [[| |[|]|]|]; done.
Qed.

(** ** Boolean options *)

(** The cursor after a long option: it stays, or it moves by one, onto a
    token that is there, and the option is not boolean. *)
Lemma parseLongOpt_cursor st optDefs st' k v :
  parseLongOpt st optDefs = Ok (st', (k, v)) →
  st' = st
  ∨ (st' = advance st
     ∧ ∃ optDef word, optDefs !! k = Some optDef ∧ OptType optDef ≠ cmdkit.Bool
         ∧ peek (advance st) = Ok word ∧ parseOpt k word optDefs = Ok v).
Proof.
  unfold parseLongOpt. destruct (peek st) as [param| |]; unbind; [|done..].
  destruct (splitkv (string_drop 2 param)) as [[k0 v0] [|]].
  - destruct (parseOpt k0 v0 optDefs); unbind; naive_solver.
  - destruct (optDefs !! k0) as [optDef|] eqn:Hk; [|done].
    case_bool_decide as Hbool; [naive_solver|].
    destruct (hasNext st); [|done].
    destruct (peek (advance st)) as [word| |]; unbind; [|done..].
    destruct (parseOpt k0 word optDefs) eqn:Hv; unbind; naive_solver.
Qed.

(** The cursor after a token of short flags: it stays, or it moves by one
    and the last flag, which took the next token, is not boolean. *)
Lemma parseShortFlags_cursor k ks st optDefs kvs st' kvs' :
  parseShortFlags k ks st optDefs kvs = Ok (st', kvs') →
  st' = st
  ∨ (st' = advance st
     ∧ ∃ kvs0 flag optDef word v,
         kvs' = kvs0 ++ [{| Key := flag; Value := v |}]
         ∧ optDefs !! flag = Some optDef ∧ OptType optDef ≠ cmdkit.Bool
         ∧ peek (advance st) = Ok word ∧ parseOpt flag word optDefs = Ok v).
Proof.
  revert kvs. induction ks as [|c rest IH]; intros kvs; cbn [parseShortFlags];
    [naive_solver|].
  destruct (optDefs !! String.String c EmptyString) as [od|] eqn:Hflag; [|done].
  case_bool_decide as Hbool; [by apply IH|].
  destruct (negb (bool_decide (rest = EmptyString))).
  - destruct (parseOpt _ rest optDefs); unbind; naive_solver.
  - destruct (hasNext st); [|done].
    destruct (peek (advance st)) as [word| |] eqn:Hword; unbind; [|done..].
    destruct (parseOpt _ word optDefs) as [v| |] eqn:Hv; unbind; [|done..].
    intros [= <- <-]. right. split; [done|].
    by exists kvs, (String.String c EmptyString), od, word, v.
Qed.

(** C6.  A boolean option never takes the following token.  The long
    token [--name] of a boolean option yields [true] with the cursor where
    it was; a boolean flag [c] in a token of short flags is recorded as
    [true] and the scan goes on with the rest of the same token, the
    cursor where it was. *)
Theorem bool_option_takes_no_token st optDefs longOpt shortOpt param name k c rest kvs :
  OptType longOpt = cmdkit.Bool →
  OptType shortOpt = cmdkit.Bool →
  peek st = Ok param →
  splitkv (string_drop 2 param) = (name, EmptyString, false) →
  optDefs !! name = Some longOpt →
  optDefs !! String.String c EmptyString = Some shortOpt →
  parseLongOpt st optDefs = Ok (st, (name, VBool true))
  ∧ parseShortFlags k (String.String c rest) st optDefs kvs
    = parseShortFlags k rest st optDefs
        (kvs ++ [{| Key := String.String c EmptyString; Value := VBool true |}]).
Proof.
  intros HL HS Hpeek Hsplit Hname Hflag. split.
  - unfold parseLongOpt. rewrite Hpeek. unbind. rewrite Hsplit, Hname.
    by rewrite bool_decide_true.
  - cbn [parseShortFlags]. rewrite Hflag. by rewrite bool_decide_true.
Qed.

(** ** The loop over the command line *)

Lemma peek_extend more st param :
  peek st = Ok param → peek (extendState more st) = Ok param.
Proof.
  unfold peek, extendState. simpl.
  destruct (cmdline st !! i st) as [p|] eqn:Hp; [|done].
  intros [= <-]. by rewrite (lookup_app_l_Some _ _ _ _ Hp).
Qed.

Lemma hasNext_extend more st :
  hasNext st = true → hasNext (extendState more st) = true.
Proof.
  unfold hasNext. case_bool_decide; [|done]. intros _.
  apply bool_decide_eq_true. simpl. rewrite length_app. lia.
Qed.

Lemma parseLongOpt_extend more st optDefs st' r :
  parseLongOpt st optDefs = Ok (st', r) →
  parseLongOpt (extendState more st) optDefs = Ok (extendState more st', r).
Proof.
  unfold parseLongOpt.
  destruct (peek st) as [param| |] eqn:Hp; unbind; [|done..].
  rewrite (peek_extend more _ _ Hp). unbind.
  destruct (splitkv (string_drop 2 param)) as [[k v] [|]].
  - destruct (parseOpt k v optDefs); unbind; [|done..]. by intros [= <- <-].
  - destruct (optDefs !! k) as [optDef|]; [|done].
    case_bool_decide; [by intros [= <- <-]|].
    destruct (hasNext st) eqn:Hnext; [|done].
    rewrite (hasNext_extend more _ Hnext).
    destruct (peek (advance st)) as [word| |] eqn:Hword; unbind; [|done..].
    change (advance (extendState more st)) with (extendState more (advance st)).
    rewrite (peek_extend more _ _ Hword). unbind.
    destruct (parseOpt k word optDefs); unbind; [|done..]. by intros [= <- <-].
Qed.

Lemma parseShortFlags_extend more k ks st optDefs kvs st' kvs' :
  parseShortFlags k ks st optDefs kvs = Ok (st', kvs') →
  parseShortFlags k ks (extendState more st) optDefs kvs
  = Ok (extendState more st', kvs').
Proof.
  revert kvs. induction ks as [|c rest IH]; intros kvs; cbn [parseShortFlags].
  { by intros [= <- <-]. }
  destruct (optDefs !! String.String c EmptyString) as [od|]; [|done].
  case_bool_decide; [by apply IH|].
  destruct (negb (bool_decide (rest = EmptyString))).
  - destruct (parseOpt _ rest optDefs); unbind; [|done..]. by intros [= <- <-].
  - destruct (hasNext st) eqn:Hnext; [|done].
    rewrite (hasNext_extend more _ Hnext).
    destruct (peek (advance st)) as [word| |] eqn:Hword; unbind; [|done..].
    change (advance (extendState more st)) with (extendState more (advance st)).
    rewrite (peek_extend more _ _ Hword). unbind.
    destruct (parseOpt _ word optDefs); unbind; [|done..]. by intros [= <- <-].
Qed.

Lemma parseShortOpts_extend more st optDefs st' kvs :
  parseShortOpts st optDefs = Ok (st', kvs) →
  parseShortOpts (extendState more st) optDefs = Ok (extendState more st', kvs).
Proof.
  unfold parseShortOpts.
  destruct (peek st) as [param| |] eqn:Hp; unbind; [|done..].
  rewrite (peek_extend more _ _ Hp). unbind.
  destruct (splitkv (string_drop 1 param)) as [[k v] [|]].
  - destruct (parseOpt k v optDefs); unbind; [|done..]. by intros [= <- <-].
  - apply parseShortFlags_extend.
Qed.

(** A turn that goes on to the next token does the same when more tokens
    follow the command line. *)
Lemma parseTurn_extend more root s param s' :
  parseTurn root s param = Ok (Next s') →
  parseTurn root (extendVars more s) param = Ok (Next (extendVars more s')).
Proof.
  unfold parseTurn. case_bool_decide; [done|].
  destruct (HasPrefix param "--").
  { cbn [extendVars withState st optDefs opts path args cmd].
    destruct (parseLongOpt (st s) (optDefs s)) as [[st1 [k v]]| |] eqn:Hlong;
      unbind; [|done..].
    rewrite (parseLongOpt_extend more _ _ _ _ Hlong). unbind.
    destruct (opts s !! k); [done|].
    destruct (optDefs s !! k); [|done]. by intros [= <-]. }
  destruct (HasPrefix param "-" && negb (bool_decide (param = "-"))).
  { cbn [extendVars withState st optDefs opts path args cmd].
    destruct (parseShortOpts (st s) (optDefs s)) as [[st1 kvs]| |] eqn:Hshort;
      unbind; [|done..].
    rewrite (parseShortOpts_extend more _ _ _ _ Hshort). unbind.
    destruct (setShortOpts (optDefs s) kvs (opts s)); [|done..]. by intros [= <-]. }
  cbn [extendVars withState st optDefs opts path args cmd].
  destruct (Subcommands (cmd s) !! param) as [sub|].
  - destruct (GetOptions root (path s ++ [param])); unbind; [done|].
    destruct (External sub); [done|]. by intros [= <-].
  - case_bool_decide; [done|]. by intros [= <-].
Qed.

(** [break L] leaves the cursor on the token that it met. *)
Lemma parseTurn_break root s param s' :
  parseTurn root s param = Ok (BreakL s') → st s' = st s.
Proof.
  unfold parseTurn. case_bool_decide; [by intros [= <-]|].
  destruct (HasPrefix param "--").
  { destruct (parseLongOpt (st s) (optDefs s)) as [[st1 [k v]]| |]; unbind; [|done..].
    destruct (opts s !! k); [done|]. by destruct (optDefs s !! k). }
  destruct (HasPrefix param "-" && negb (bool_decide (param = "-"))).
  { destruct (parseShortOpts (st s) (optDefs s)) as [[st1 kvs]| |]; unbind; [|done..].
    by destruct (setShortOpts (optDefs s) kvs (opts s)). }
  destruct (Subcommands (cmd s) !! param) as [sub|].
  - destruct (GetOptions root (path s ++ [param])); unbind; [done|].
    destruct (External sub); [by intros [= <-]|done].
  - by case_bool_decide.
Qed.

Lemma parseShortOpts_cursor st optDefs st' kvs :
  parseShortOpts st optDefs = Ok (st', kvs) →
  st' = st ∨ (st' = advance st ∧ ∃ word, peek (advance st) = Ok word).
Proof.
  unfold parseShortOpts. destruct (peek st) as [param| |]; unbind; [|done..].
  destruct (splitkv (string_drop 1 param)) as [[k v] [|]].
  - destruct (parseOpt k v optDefs); unbind; [|done..]. intros [= <- <-]. by left.
  - intros Hflags.
    apply parseShortFlags_cursor in Hflags
      as [-> | [-> (? & ? & ? & word & ? & _ & _ & _ & Hw & _)]]; eauto.
Qed.

(** A turn that goes on leaves the cursor on a token of the command line,
    the one that it met or the next one. *)
Lemma parseTurn_cursor root s param s' :
  parseTurn root s param = Ok (Next s') →
  i (st s) < length (cmdline (st s)) →
  cmdline (st s') = cmdline (st s)
  ∧ i (st s) ≤ i (st s') < length (cmdline (st s)).
Proof.
  assert (∀ st0 word, peek (advance st0) = Ok word →
            S (i st0) < length (cmdline st0)) as Hword.
  { intros st0 word. unfold peek, advance. simpl.
    destruct (cmdline st0 !! S (i st0)) eqn:Hl; [|done].
    intros _. by eapply lookup_lt_Some. }
  unfold parseTurn. case_bool_decide; [done|].
  destruct (HasPrefix param "--").
  { destruct (parseLongOpt (st s) (optDefs s)) as [[st1 [k v]]| |] eqn:Hlong;
      unbind; [|done..].
    destruct (opts s !! k); [done|].
    destruct (optDefs s !! k); [|done]. intros [= <-] Hi. simpl.
    apply parseLongOpt_cursor in Hlong as [-> | [-> (? & word & _ & _ & Hw & _)]].
    - split; [done|lia].
    - apply Hword in Hw. simpl. split; [done|lia]. }
  destruct (HasPrefix param "-" && negb (bool_decide (param = "-"))).
  { destruct (parseShortOpts (st s) (optDefs s)) as [[st1 kvs]| |] eqn:Hshort;
      unbind; [|done..].
    destruct (setShortOpts (optDefs s) kvs (opts s)); [|done..].
    intros [= <-] Hi. simpl.
    apply parseShortOpts_cursor in Hshort as [-> | [-> [word Hw]]].
    - split; [done|lia].
    - apply Hword in Hw. simpl. split; [done|lia]. }
  destruct (Subcommands (cmd s) !! param) as [sub|].
  - destruct (GetOptions root (path s ++ [param])); unbind; [done|].
    destruct (External sub); [done|]. intros [= <-] Hi. simpl. split; [done|lia].
  - case_bool_decide; [done|]. intros [= <-] Hi. simpl. split; [done|lia].
Qed.

(** The loop keeps the command line, and its cursor within it. *)
Lemma parseLoop_cursor fuel root s s' :
  parseLoop fuel root s = Ok s' →
  i (st s) ≤ length (cmdline (st s)) →
  cmdline (st s') = cmdline (st s) ∧ i (st s') ≤ length (cmdline (st s)).
Proof.
  revert s. induction fuel as [|fuel IH]; intros s; cbn [parseLoop];
    unfold done; case_bool_decide as Hdone; try done.
  - by intros [= <-].
  - by intros [= <-].
  - destruct (peek (st s)) as [param| |]; unbind; [|done..].
    destruct (parseTurn root s param) as [[t|t]| |] eqn:Hturn; unbind; [| |done..].
    + intros Hloop Hi. apply parseTurn_cursor in Hturn as (Hcmd & Hlt); [|lia].
      apply IH in Hloop; simpl in *; rewrite Hcmd in *; [done|lia].
    + intros [= <-] Hi. apply parseTurn_break in Hturn as ->. done.
Qed.

(** If the loop runs off the end of the command line [pre], then over
    [pre ++ more] it comes to the first token of [more] with the same
    variables. *)
Lemma parseLoop_extend more root fuel s s' r :
  parseLoop fuel root s = Ok s' →
  done (st s') = true →
  (∀ k, parseLoop (S k) root (extendVars more s') = r) →
  ∀ fuel', fuel < fuel' → parseLoop fuel' root (extendVars more s) = r.
Proof.
  intros Hloop Hdone Hr. revert s Hloop.
  induction fuel as [|fuel IH]; intros s; cbn [parseLoop];
    destruct (done (st s)) eqn:Hs.
  - intros [= <-] [|k] Hk; [lia|]. apply Hr.
  - done.
  - intros [= <-] [|k] Hk; [lia|]. apply Hr.
  - destruct (peek (st s)) as [param| |] eqn:Hp; unbind; [|done..].
    destruct (parseTurn root s param) as [[t|t]| |] eqn:Hturn; unbind; [| |done..].
    + intros Hloop [|k] Hk; [lia|]. cbn [parseLoop].
      assert (done (st (extendVars more s)) = false) as ->.
      { revert Hs. unfold done. simpl. case_bool_decide; [done|]. intros _.
        apply bool_decide_eq_false. rewrite length_app. lia. }
      change (st (extendVars more s)) with (extendState more (st s)).
      rewrite (peek_extend more _ _ Hp). unbind.
      rewrite (parseTurn_extend more _ _ _ _ Hturn). unbind.
      apply (IH _ Hloop). lia.
    + intros [= <-]. apply parseTurn_break in Hturn. congruence.
Qed.

(** C2, amended.  A [--] that the loop meets as the current token, having
    run over all the tokens [pre] before it without an error, without a
    [break] and without taking the [--] itself as the value of an option:
    the tokens before it are parsed as they are on their own, and all the
    tokens [post] after it are appended to the positional arguments as
    they are; path, command and options are those reached before it. *)
Theorem parse_double_dash root req pre post optDefs0 s :
  GetOptions root [] = inr optDefs0 →
  parseLoop (length pre) root (parseStart pre root optDefs0) = Ok s →
  done (st s) = true →
  parse req pre root
  = Ok {| req_Root := Some root; req_Command := Some (cmd s); req_Path := path s;
          req_Arguments := args s; req_Options := opts s; req_Files := req_Files req |}
  ∧ parse req (pre ++ "--" :: post) root
    = Ok {| req_Root := Some root; req_Command := Some (cmd s); req_Path := path s;
            req_Arguments := args s ++ post; req_Options := opts s;
            req_Files := req_Files req |}.
Proof.
  intros Hopts Hloop Hdone. unfold parse. rewrite Hopts. unbind. split.
  { by rewrite Hloop. }
  destruct (parseLoop_cursor _ _ _ _ Hloop) as [Hcmd Hi]; [simpl; lia|].
  simpl in Hcmd, Hi.
  assert (i (st s) = length pre) as Hend.
  { revert Hdone. unfold done. rewrite Hcmd. case_bool_decide; [lia|done]. }
  set (more := "--" :: post).
  set (final := {| path := path s; args := args s ++ post; opts := opts s;
                   cmd := cmd s; optDefs := optDefs s;
                   st := extendState more (st s) |}).
  assert (parseLoop (length (pre ++ more)) root (parseStart (pre ++ more) root optDefs0)
          = Ok final) as ->; [|done].
  change (parseStart (pre ++ more) root optDefs0)
    with (extendVars more (parseStart pre root optDefs0)).
  apply (parseLoop_extend more root (length pre) _ s); [done..| |].
  - intros k. cbn [parseLoop].
    assert (done (st (extendVars more s)) = false) as ->.
    { unfold done. simpl. rewrite Hcmd, Hend, length_app. simpl.
      apply bool_decide_eq_false. lia. }
    assert (peek (st (extendVars more s)) = Ok "--") as ->.
    { unfold peek, more. simpl. rewrite Hcmd, Hend.
      by rewrite list_lookup_middle. }
    unbind. unfold parseTurn. rewrite bool_decide_true by done. unbind.
    unfold final, more. do 3 f_equal. simpl. rewrite Hcmd, Hend.
    by rewrite <- drop_drop, drop_app_length.
  - rewrite length_app. simpl. lia.
Qed.

(** ** The command line is always parsed to an end *)

Lemma peek_is_Some st :
  i st < length (cmdline st) → ∃ param, peek st = Ok param.
Proof.
  intros Hi. unfold peek.
  destruct (lookup_lt_is_Some_2 (cmdline st) (i st) Hi) as [param ->]. by exists param.
Qed.

Lemma hasNext_peek st :
  hasNext st = true → ∃ word, peek (advance st) = Ok word.
Proof.
  unfold hasNext. case_bool_decide; [|done]. intros _.
  apply peek_is_Some. simpl. lia.
Qed.

Lemma parseOpt_returns opt val optDefs : parseOpt opt val optDefs ≠ Abort.
Proof.
  unfold parseOpt. destruct (optDefs !! opt) as [od|]; [|done].
  by destruct (OptParse od val).
Qed.

Lemma parseOpt_key opt val optDefs v :
  parseOpt opt val optDefs = Ok v → is_Some (optDefs !! opt).
Proof. unfold parseOpt. destruct (optDefs !! opt); [eauto|done]. Qed.

Lemma parseLongOpt_returns st optDefs :
  i st < length (cmdline st) → parseLongOpt st optDefs ≠ Abort.
Proof.
  intros [param Hp]%peek_is_Some. unfold parseLongOpt. rewrite Hp. unbind.
  destruct (splitkv (string_drop 2 param)) as [[k v] [|]].
  - pose proof (parseOpt_returns k v optDefs). by destruct (parseOpt k v optDefs).
  - destruct (optDefs !! k) as [optDef|]; [|done].
    case_bool_decide; [done|].
    destruct (hasNext st) eqn:Hnext; [|done].
    destruct (hasNext_peek _ Hnext) as [word ->]. unbind.
    pose proof (parseOpt_returns k word optDefs). by destruct (parseOpt k word optDefs).
Qed.

Lemma parseLongOpt_key st optDefs st' k v :
  parseLongOpt st optDefs = Ok (st', (k, v)) → is_Some (optDefs !! k).
Proof.
  unfold parseLongOpt. destruct (peek st) as [param| |]; unbind; [|done..].
  destruct (splitkv (string_drop 2 param)) as [[k0 v0] [|]].
  - destruct (parseOpt k0 v0 optDefs) eqn:Hv; unbind; [|done..].
    intros [= _ <- _]. by eapply parseOpt_key.
  - destruct (optDefs !! k0) as [optDef|] eqn:Hk; [|done].
    case_bool_decide; [intros [= _ <- _]; by rewrite Hk|].
    destruct (hasNext st); [|done].
    destruct (peek (advance st)) as [word| |]; unbind; [|done..].
    destruct (parseOpt k0 word optDefs); unbind; [|done..].
    intros [= _ <- _]. by rewrite Hk.
Qed.

Lemma parseShortFlags_returns k ks st optDefs kvs :
  parseShortFlags k ks st optDefs kvs ≠ Abort.
Proof.
  revert kvs. induction ks as [|c rest IH]; intros kvs; cbn [parseShortFlags]; [done|].
  destruct (optDefs !! String.String c EmptyString) as [od|]; [|done].
  case_bool_decide; [apply IH|].
  destruct (negb (bool_decide (rest = EmptyString))).
  - pose proof (parseOpt_returns (String.String c EmptyString) rest optDefs).
    by destruct (parseOpt _ rest optDefs).
  - destruct (hasNext st) eqn:Hnext; [|done].
    destruct (hasNext_peek _ Hnext) as [word ->]. unbind.
    pose proof (parseOpt_returns (String.String c EmptyString) word optDefs).
    by destruct (parseOpt _ word optDefs).
Qed.

Lemma parseShortFlags_keys k ks st optDefs kvs st' kvs' :
  knownKeys optDefs kvs →
  parseShortFlags k ks st optDefs kvs = Ok (st', kvs') →
  knownKeys optDefs kvs'.
Proof.
  unfold knownKeys.
  revert kvs. induction ks as [|c rest IH]; intros kvs Hkvs; cbn [parseShortFlags].
  { by intros [= _ <-]. }
  destruct (optDefs !! String.String c EmptyString) as [od|] eqn:Hflag; [|done].
  assert (Forall (λ kv, is_Some (optDefs !! Key kv))
            [{| Key := String.String c EmptyString; Value := VBool true |}]) as Hone.
  { apply Forall_singleton. simpl. by rewrite Hflag. }
  case_bool_decide.
  { apply IH. by apply Forall_app. }
  destruct (negb (bool_decide (rest = EmptyString))).
  - destruct (parseOpt _ rest optDefs); unbind; [|done..].
    intros [= _ <-]. apply Forall_app. split; [done|].
    apply Forall_singleton. simpl. by rewrite Hflag.
  - destruct (hasNext st); [|done].
    destruct (peek (advance st)) as [word| |]; unbind; [|done..].
    destruct (parseOpt _ word optDefs); unbind; [|done..].
    intros [= _ <-]. apply Forall_app. split; [done|].
    apply Forall_singleton. simpl. by rewrite Hflag.
Qed.

Lemma parseShortOpts_returns st optDefs :
  i st < length (cmdline st) → parseShortOpts st optDefs ≠ Abort.
Proof.
  intros [param Hp]%peek_is_Some. unfold parseShortOpts. rewrite Hp. unbind.
  destruct (splitkv (string_drop 1 param)) as [[k v] [|]].
  - pose proof (parseOpt_returns k v optDefs). by destruct (parseOpt k v optDefs).
  - apply parseShortFlags_returns.
Qed.

Lemma parseShortOpts_keys st optDefs st' kvs :
  parseShortOpts st optDefs = Ok (st', kvs) → knownKeys optDefs kvs.
Proof.
  unfold parseShortOpts. destruct (peek st) as [param| |]; unbind; [|done..].
  destruct (splitkv (string_drop 1 param)) as [[k v] [|]].
  - destruct (parseOpt k v optDefs) eqn:Hv; unbind; [|done..].
    intros [= _ <-]. apply Forall_singleton. simpl. by eapply parseOpt_key.
  - apply parseShortFlags_keys. by apply Forall_nil.
Qed.

Lemma setShortOpts_returns optDefs kvs opts :
  knownKeys optDefs kvs → setShortOpts optDefs kvs opts ≠ Abort.
Proof.
  unfold knownKeys.
  revert opts. induction kvs as [|kv kvs IH]; intros opts Hkvs; cbn [setShortOpts]; [done|].
  apply Forall_cons in Hkvs as [[od ->] Hkvs]. unbind. simpl.
  destruct (opts !! OptName od); [done|]. by apply IH.
Qed.

Lemma parseTurn_returns root s param :
  i (st s) < length (cmdline (st s)) → parseTurn root s param ≠ Abort.
Proof.
  intros Hi. unfold parseTurn. case_bool_decide; [done|].
  destruct (HasPrefix param "--").
  { pose proof (parseLongOpt_returns (st s) (optDefs s) Hi).
    destruct (parseLongOpt (st s) (optDefs s)) as [[st1 [k v]]| |] eqn:Hlong;
      unbind; [|done..].
    destruct (opts s !! k); [done|].
    by destruct (parseLongOpt_key _ _ _ _ _ Hlong) as [od ->]. }
  destruct (HasPrefix param "-" && negb (bool_decide (param = "-"))).
  { pose proof (parseShortOpts_returns (st s) (optDefs s) Hi).
    destruct (parseShortOpts (st s) (optDefs s)) as [[st1 kvs]| |] eqn:Hshort;
      unbind; [|done..].
    pose proof (setShortOpts_returns (optDefs s) kvs (opts s)
                  (parseShortOpts_keys _ _ _ _ Hshort)).
    by destruct (setShortOpts (optDefs s) kvs (opts s)). }
  destruct (Subcommands (cmd s) !! param) as [sub|].
  - destruct (GetOptions root (path s ++ [param])); unbind; [done|].
    by destruct (External sub).
  - by case_bool_decide.
Qed.

(** As many turns as there are tokens ahead are enough. *)
Lemma parseLoop_returns fuel root s :
  length (cmdline (st s)) - i (st s) ≤ fuel →
  parseLoop fuel root s ≠ Abort.
Proof.
  revert s. induction fuel as [|fuel IH]; intros s Hfuel; cbn [parseLoop];
    unfold done; case_bool_decide as Hdone; try done; [lia|].
  destruct (peek_is_Some (st s)) as [param ->]; [lia|]. unbind.
  pose proof (parseTurn_returns root s param ltac:(lia)).
  destruct (parseTurn root s param) as [[t|t]| |] eqn:Hturn; unbind; [|done..].
  apply parseTurn_cursor in Hturn as (Hcmd & Hlt); [|lia].
  apply IH. simpl. rewrite Hcmd. lia.
Qed.

(** [parse] returns: a request, or an error. *)
Lemma parse_returns req cmdline root : parse req cmdline root ≠ Abort.
Proof.
  unfold parse. destruct (GetOptions root []) as [e|optDefs0]; unbind; [done|].
  pose proof (parseLoop_returns (length cmdline) root (parseStart cmdline root optDefs0)
                ltac:(simpl; lia)).
  by destruct (parseLoop _ _ _).
Qed.

(** ** Argument distribution always comes to an end *)

Lemma requiredFrom_step n argDefs argDef :
  argDefs !! n = Some argDef →
  requiredFrom n argDefs
  = ((if Required argDef then 1 else 0) + requiredFrom (S n) argDefs)%Z.
Proof.
  intros Hn. unfold requiredFrom. rewrite (drop_S _ _ _ Hn). simpl.
  destruct (Required argDef); simpl; lia.
Qed.

Lemma requiredFrom_end n argDefs :
  length argDefs ≤ n → requiredFrom n argDefs = 0%Z.
Proof. intros Hn. unfold requiredFrom. by rewrite drop_ge. Qed.

Lemma requiredFrom_inside n argDefs :
  (0 < requiredFrom n argDefs)%Z → n < length argDefs.
Proof.
  intros Hpos. destruct (decide (n < length argDefs)) as [|Hge]; [done|].
  rewrite requiredFrom_end in Hpos by lia. lia.
Qed.

Lemma getArgDef_inside j argDefs :
  (0 ≤ j)%Z → Z.to_nat j < length argDefs →
  getArgDef j argDefs = argDefs !! Z.to_nat j.
Proof. intros Hj Hlt. unfold getArgDef. by rewrite bool_decide_true by lia. Qed.

Lemma getArgDef_is_Some j argDefs :
  argDefs ≠ [] → is_Some (getArgDef j argDefs).
Proof.
  intros Hne. assert (0 < length argDefs) by (destruct argDefs; [done|simpl; lia]).
  unfold getArgDef. case_bool_decide.
  - apply lookup_lt_is_Some_2. lia.
  - rewrite bool_decide_true by done. apply lookup_lt_is_Some_2. lia.
Qed.

(** The inner loop stops: while it steps over a slot there is a required
    slot ahead. *)
Lemma skipOptional_returns fuel argDefs remInputs remRequired j :
  (0 ≤ j)%Z → (0 < remInputs)%Z →
  (remRequired ≤ requiredFrom (Z.to_nat j) argDefs)%Z →
  length argDefs - Z.to_nat j ≤ fuel →
  ∃ j', skipOptional fuel argDefs remInputs remRequired j = Ok j'
    ∧ (j ≤ j')%Z ∧ (remRequired ≤ requiredFrom (Z.to_nat j') argDefs)%Z.
Proof.
  revert j. induction fuel as [|fuel IH]; intros j Hj Hin Hreq Hfuel;
    cbn [skipOptional]; case_bool_decide as Hle;
    try (exists j; split; [done|lia]).
  - pose proof (requiredFrom_inside (Z.to_nat j) argDefs). lia.
  - pose proof (requiredFrom_inside (Z.to_nat j) argDefs ltac:(lia)) as Hlt.
    rewrite getArgDef_inside by done.
    destruct (lookup_lt_is_Some_2 argDefs _ Hlt) as [argDef Hdef].
    rewrite Hdef. unbind.
    destruct (Required argDef) eqn:Hr; simpl; [exists j; split; [done|lia]|].
    rewrite (requiredFrom_step _ _ _ Hdef), Hr in Hreq.
    destruct (IH (j + 1)%Z) as (j' & Hskip & Hjj & Hreq'); [lia|done| |lia|].
    { by replace (Z.to_nat (j + 1)) with (S (Z.to_nat j)) by lia. }
    exists j'. split; [done|]. split; [lia|done].
Qed.

(** Choosing a slot keeps the count of required slots below what is
    ahead. *)
Lemma requiredFrom_chosen j argDefs argDef remRequired :
  (0 ≤ j)%Z → getArgDef j argDefs = Some argDef →
  (remRequired ≤ requiredFrom (Z.to_nat j) argDefs)%Z →
  ((if Required argDef then remRequired - 1 else remRequired)
   ≤ requiredFrom (Z.to_nat (j + 1)) argDefs)%Z.
Proof.
  intros Hj Hdef Hreq.
  replace (Z.to_nat (j + 1)) with (S (Z.to_nat j)) by lia.
  destruct (decide (Z.to_nat j < length argDefs)) as [Hlt|Hge].
  - rewrite getArgDef_inside in Hdef by done.
    rewrite (requiredFrom_step _ _ _ Hdef) in Hreq.
    destruct (Required argDef); lia.
  - rewrite requiredFrom_end in Hreq by lia. rewrite requiredFrom_end by lia.
    destruct (Required argDef); lia.
Qed.

Lemma maybeWrapStdin_returns f : maybeWrapStdin f ≠ Abort.
Proof.
  unfold maybeWrapStdin, isTty. destruct f as [f|]; [|done].
  destruct (FileStat f) as [e|fInfo]; unbind; [done|].
  by destruct (ModeCharDevice fInfo).
Qed.

Lemma maybeWrapStdin_Ok f r : maybeWrapStdin f = Ok r → is_Some f.
Proof. destruct f; [eauto|done]. Qed.

Lemma appendFile_returns fpath argDef recursive hidden :
  appendFile fpath argDef recursive hidden ≠ Abort.
Proof.
  unfold appendFile, NewSerialFile. destruct (os_Lstat fpath) as [e|stat]; unbind; [done|].
  by destruct (IsDir stat), (negb (Recursive argDef)), (negb recursive).
Qed.

Lemma resolveFile_returns req argDef stdin0 fpath :
  resolveFile req argDef stdin0 fpath ≠ Abort.
Proof.
  unfold resolveFile. case_bool_decide.
  { pose proof (maybeWrapStdin_returns stdin0).
    destruct (maybeWrapStdin stdin0) as [r| |] eqn:Hwrap; unbind; [|done..].
    by destruct (maybeWrapStdin_Ok _ _ Hwrap) as [f ->]. }
  destruct (isURL fpath) as [u|]; [done|].
  assert (∀ p, appendFile p argDef (isRecursive req) (isHidden req)
               ≫= (λ nf, Ok (path_Base p, nf)) ≠ Abort) as Happend.
  { intros p. pose proof (appendFile_returns p argDef (isRecursive req) (isHidden req)).
    by destruct (appendFile p argDef _ _). }
  case_bool_decide.
  - destruct os_Getwd as [e|cwd]; unbind; [done|].
    destruct (filepath_EvalSymlinks _) as [e|p]; unbind; [done|]. apply Happend.
  - destruct (match req_Options req !! DerefLong with Some (VBool b) => b | _ => false end).
    + destruct (filepath_EvalSymlinks _) as [e|p]; unbind; [done|]. apply Happend.
    + unbind. apply Happend.
Qed.

Lemma fillString_returns argDef fillingVariadic v :
  fillString argDef fillingVariadic v ≠ Abort.
Proof.
  unfold fillString. destruct (inputs v); [|done].
  destruct (_ && _); [|done].
  pose proof (maybeWrapStdin_returns (stdin v)).
  destruct (maybeWrapStdin (stdin v)) as [r| |] eqn:Hwrap; [|done..].
  by destruct (maybeWrapStdin_Ok _ _ Hwrap) as [f ->].
Qed.

Lemma fillFile_returns req argDef fillingVariadic v :
  fillFile req argDef fillingVariadic v ≠ Abort.
Proof.
  unfold fillFile. destruct (inputs v) as [|fpath rest].
  - destruct (_ && _); [|done].
    pose proof (maybeWrapStdin_returns (stdin v)).
    destruct (maybeWrapStdin (stdin v)) as [r| |] eqn:Hwrap; unbind; [|done..].
    by destruct (maybeWrapStdin_Ok _ _ Hwrap) as [f ->].
  - pose proof (resolveFile_returns req argDef (stdin v) fpath).
    by destruct (resolveFile req argDef (stdin v) fpath) as [[key n]| |].
Qed.

Lemma argsTurn_returns req argDefs remInputs v :
  argDefs ≠ [] → (0 < remInputs)%Z → argsInv argDefs v →
  argsTurn req argDefs remInputs v ≠ Abort
  ∧ ∀ v', argsTurn req argDefs remInputs v = Ok v' → argsInv argDefs v'.
Proof.
  intros Hne Hin [Hj Hreq]. unfold argsTurn.
  destruct (skipOptional_returns (length argDefs) argDefs remInputs (remRequired v)
              (iArgDef v)) as (j & -> & Hjj & Hreq'); [done..|lia|].
  unbind. destruct (getArgDef_is_Some j argDefs Hne) as [argDef Hdef].
  rewrite Hdef.
  assert (∀ fill : res (list string * list string * gmap string Node * option File),
            fill ≠ Abort →
            (fill ≫= (λ '(inputs, stringArgs, fileArgs, stdin),
               Ok {| inputs := inputs; stringArgs := stringArgs; fileArgs := fileArgs;
                     iArgDef := j + 1;
                     remRequired := if Required argDef then (remRequired v - 1)%Z
                                    else remRequired v;
                     stdin := stdin |})) ≠ Abort
            ∧ ∀ v', fill ≫= (λ '(inputs, stringArgs, fileArgs, stdin),
               Ok {| inputs := inputs; stringArgs := stringArgs; fileArgs := fileArgs;
                     iArgDef := j + 1;
                     remRequired := if Required argDef then (remRequired v - 1)%Z
                                    else remRequired v;
                     stdin := stdin |}) = Ok v' → argsInv argDefs v') as Hfill.
  { intros [[[[inp strs] fls] sin]| |] Hfill; unbind; [|done..].
    split; [done|]. intros v' [= <-]. split; simpl; [lia|].
    apply requiredFrom_chosen; [lia|done..]. }
  destruct (ArgType argDef); apply Hfill;
    [apply fillString_returns | apply fillFile_returns].
Qed.

Lemma argsLoop_returns req argDefs n v :
  argDefs ≠ [] → argsInv argDefs v → argsLoop n req argDefs v ≠ Abort.
Proof.
  intros Hne. revert v. induction n as [|n IH]; intros v Hinv; [done|].
  cbn [argsLoop].
  destruct (argsTurn_returns req argDefs (Z.of_nat (S n)) v) as [Hret Hinv'];
    [done|lia|done|].
  destruct (argsTurn req argDefs (Z.of_nat (S n)) v) as [v'| |]; unbind; [|done..].
  apply IH. by apply Hinv'.
Qed.

(** [parseArgs] returns, a request or an error, once the request has a
    command. *)
Lemma parseArgs_returns req root stdin0 :
  is_Some (req_Command req) → parseArgs req root stdin0 ≠ Abort.
Proof.
  intros [c Hc]. unfold parseArgs. rewrite Hc. unbind.
  destruct (_ && _) eqn:Hmany; [done|].
  assert (argsLoop (numInputs (Arguments c) (req_Arguments req) stdin0) req (Arguments c)
            (argsStart (Arguments c) (req_Arguments req) stdin0) ≠ Abort) as Hloop.
  { destruct (Arguments c) as [|argDef argDefs] eqn:Hargs.
    - unfold numInputs, notVariadic, lastArgDefHas in *. simpl in *.
      destruct (req_Arguments req); [done|].
      by rewrite bool_decide_true in Hmany by (simpl; lia).
    - apply argsLoop_returns; [done|]. split; simpl; [done|].
      unfold requiredFrom. simpl. lia. }
  destruct (argsLoop _ _ _ _) as [v| |]; unbind; [|done..].
  by destruct (missingRequired _ _).
Qed.

(** [Parse] returns a request, with or without an error, provided that
    filling in the defaults leaves the command of the request in place. *)
Lemma Parse_returns input stdin0 root :
  (∀ req, is_Some (req_Command req) → is_Some (req_Command (FillDefaults req).1)) →
  ∃ req err, Parse input stdin0 root = Some (req, err).
Proof.
  intros Hfill. unfold Parse.
  pose proof (parse_returns newRequest input root) as Hparse.
  destruct (parse newRequest input root) as [req1|e|] eqn:Hreq1; [|eauto|done].
  assert (is_Some (req_Command req1)) as Hcmd.
  { revert Hreq1. unfold parse.
    destruct (GetOptions root []); unbind; [done|].
    destruct (parseLoop _ _ _); unbind; [|done..]. intros [= <-]. simpl. eauto. }
  specialize (Hfill req1 Hcmd).
  destruct (FillDefaults req1) as [req2 [e|]]; [eauto|]. simpl in Hfill.
  pose proof (parseArgs_returns req2 root
                (if bootstrapNoStdin req2 then None else stdin0) Hfill) as Hargs.
  destruct (parseArgs req2 root _) as [req3|e|] eqn:Hreq3; [|eauto|done].
  destruct (parseArgs_keeps _ _ _ _ Hreq3) as ([c Hc] & _).
  unfold defaultEncoding. case_bool_decide; [|eauto].
  rewrite Hc. unbind. destruct (hasTextEncoder c); eauto.
Qed.

End Facts.


(** ** The properties at work on the small command tree *)

Lemma Parse_error_request_witness :
  (@parse demoEnv newRequest ["cat"; "--bogus"] demoRoot = Fail (ErrUnknownOption "bogus")
   ∧ newRequest = newRequest)
  ∨ (∃ req1, @parse demoEnv newRequest ["cat"; "--bogus"] demoRoot = Ok req1
       ∧ (@FillDefaults demoEnv req1 = (newRequest, Some (ErrUnknownOption "bogus"))
          ∨ (@FillDefaults demoEnv req1 = (newRequest, None)
             ∧ @parseArgs demoEnv newRequest demoRoot
                 (if bootstrapNoStdin newRequest then None else None)
               = Fail (ErrUnknownOption "bogus")))).
Proof.
  apply (@Parse_error_request demoEnv ["cat"; "--bogus"] None demoRoot).
  vm_compute. reflexivity.
Defined.

Lemma parseArgs_too_many_witness :
  @parseArgs demoEnv (requestOf addCmd ["add"] ["a"; "b"] ∅) demoRoot (Some pipe)
  = Fail (ErrSuggestions ["a"; "b"] demoRoot).
Proof.
  apply (@parseArgs_too_many demoEnv (requestOf addCmd ["add"] ["a"; "b"] ∅)
           demoRoot (Some pipe) addCmd).
  - reflexivity.
  - simpl. lia.
  - right. eexists. split; reflexivity.
Defined.

Lemma appendFile_directory_witness :
  @appendFile demoEnv "dir" (slot "file" ArgFile true false true true)
    (@isRecursive demoEnv (requestOf addCmd ["add"] ["dir"] {["recursive" := VBool true]}))
    false
  = Ok (DirectoryTree "dir" false {| IsDir := true; ModeCharDevice := false |}).
Proof.
  rewrite (@appendFile_directory demoEnv "dir" (slot "file" ArgFile true false true true)
             (requestOf addCmd ["add"] ["dir"] {["recursive" := VBool true]}) false
             {| IsDir := true; ModeCharDevice := false |}) by reflexivity.
  reflexivity.
Defined.

Lemma bool_option_takes_no_token_witness :
  parseLongOpt {| cmdline := ["--recursive"; "dir"]; i := 0 |} demoOptions
  = Ok ({| cmdline := ["--recursive"; "dir"]; i := 0 |}, ("recursive", VBool true))
  ∧ parseShortFlags "xr" "xr" {| cmdline := ["--recursive"; "dir"]; i := 0 |} demoOptions []
    = parseShortFlags "xr" "r" {| cmdline := ["--recursive"; "dir"]; i := 0 |} demoOptions
        ([] ++ [{| Key := "x"; Value := VBool true |}]).
Proof.
  apply (bool_option_takes_no_token {| cmdline := ["--recursive"; "dir"]; i := 0 |}
           demoOptions (boolOption "recursive" ["r"]) (boolOption "x" [])
           "--recursive" "recursive" "xr" "x"%char "r" []); reflexivity.
Defined.

Lemma parseArgs_required_then_variadic_witness :
  @parseArgs demoEnv (withArguments (requestOf catCmd ["cat"] [] ∅) ["a"]) demoRoot None
  = Ok (withArguments (requestOf catCmd ["cat"] [] ∅) ["a"])
  ∧ @parseArgs demoEnv (withArguments (requestOf catCmd ["cat"] [] ∅) ["a"; "b"; "c"])
      demoRoot None
    = Ok (withArguments (requestOf catCmd ["cat"] [] ∅) ["a"; "b"; "c"]).
Proof.
  pose proof (@parseArgs_required_then_variadic demoEnv (requestOf catCmd ["cat"] [] ∅)
                demoRoot None catCmd
                (slot "first" ArgString true false false false)
                (slot "more" ArgString false true false false) "a" "b" "c"
                eq_refl eq_refl eq_refl eq_refl eq_refl eq_refl eq_refl
                (or_introl eq_refl))
    as (_ & H1 & _ & H3).
  exact (conj H1 H3).
Defined.

Lemma parseArgs_pretends_stdin_witness :
  @parseArgs demoEnv (requestOf pairCmd ["pair"] [] ∅) demoRoot (Some pipe)
  = Ok (requestOf pairCmd ["pair"] [] ∅).
Proof.
  refine (proj2 (proj2 (@parseArgs_pretends_stdin demoEnv
            (requestOf pairCmd ["pair"] [] ∅) demoRoot (Some pipe) pairCmd
            {| inputs := []; stringArgs := []; fileArgs := ∅; iArgDef := 1;
               remRequired := 1; stdin := Some pipe |}
            (slot "data" ArgString true false true false)
            eq_refl eq_refl eq_refl eq_refl (ex_intro _ pipe eq_refl) eq_refl eq_refl))).
Defined.

Lemma Parse_bootstrap_discards_stdin_witness :
  @Parse demoEnv ["bootstrap"; "add"; "--default"] (Some pipe) demoRoot
  = @Parse demoEnv ["bootstrap"; "add"; "--default"] None demoRoot.
Proof.
  refine (proj1 (proj2 (@Parse_bootstrap_discards_stdin demoEnv
            ["bootstrap"; "add"; "--default"] (Some pipe) demoRoot
            (requestOf bootstrapAddCmd ["bootstrap"; "add"] [] {["default" := VBool true]})
            (requestOf bootstrapAddCmd ["bootstrap"; "add"] [] {["default" := VBool true]})
            bootstrapAddCmd _ eq_refl eq_refl (or_introl (conj eq_refl eq_refl))))).
  vm_compute. reflexivity.
Defined.

Lemma Parse_default_encoding_witness :
  ∃ c, req_Command (requestOf catCmd ["cat"] ["a"] {["encoding" := VString ""]}) = Some c
    ∧ @Parse demoEnv ["cat"; "a"; "--encoding="] None demoRoot
      = Some (match req_Options
                      (requestOf catCmd ["cat"] ["a"] {["encoding" := VString ""]})
                    !! @EncLong demoEnv with
              | Some (VString EmptyString) =>
                  if @hasTextEncoder demoEnv c
                  then @SetOption demoEnv
                         (requestOf catCmd ["cat"] ["a"] {["encoding" := VString ""]})
                         (@EncLong demoEnv) (VEncodingType (@Text demoEnv))
                  else @SetOption demoEnv
                         (requestOf catCmd ["cat"] ["a"] {["encoding" := VString ""]})
                         (@EncLong demoEnv) (VEncodingType (@JSON demoEnv))
              | _ => requestOf catCmd ["cat"] ["a"] {["encoding" := VString ""]}
              end, None).
Proof.
  apply (@Parse_default_encoding demoEnv ["cat"; "a"; "--encoding="] None demoRoot
           (requestOf catCmd ["cat"] ["a"] {["encoding" := VString ""]})
           (requestOf catCmd ["cat"] ["a"] {["encoding" := VString ""]})).
  - vm_compute. reflexivity.
  - reflexivity.
  - vm_compute. reflexivity.
Defined.

Lemma parse_double_dash_witness :
  @parse demoEnv newRequest ["cat"; "-x"] demoRoot
  = Ok (requestOf catCmd ["cat"] [] {["x" := VBool true]})
  ∧ @parse demoEnv newRequest (["cat"; "-x"] ++ "--" :: ["-x"; "cat"]) demoRoot
    = Ok (requestOf catCmd ["cat"] ([] ++ ["-x"; "cat"]) {["x" := VBool true]}).
Proof.
  assert (@parseLoop demoEnv (length ["cat"; "-x"]) demoRoot
            (@parseStart ["cat"; "-x"] demoRoot demoOptions)
          = Ok {| path := ["cat"]; args := []; opts := {["x" := VBool true]};
                  cmd := catCmd; optDefs := demoOptions;
                  st := {| cmdline := ["cat"; "-x"]; i := 2 |} |}) as Hloop.
  { vm_compute. reflexivity. }
  exact (@parse_double_dash demoEnv demoRoot newRequest ["cat"; "-x"] ["-x"; "cat"]
           demoOptions _ eq_refl Hloop eq_refl).
Defined.

(** * Further properties of the parser *)

(** ** Splitting at the equals sign *)

Lemma splitkv_cut k v : noEq k → splitkv (k +:+ "=" +:+ v) = (k, v, true).
Proof.
  unfold noEq. induction k as [|c k IH]; simpl; [done|].
  intros Hno. destruct (Ascii.eqb_spec c "="%char) as [->|Hc]; [tauto|].
  rewrite IH; [done|tauto].
Qed.

Lemma splitkv_whole opt : noEq opt → splitkv opt = (opt, EmptyString, false).
Proof.
  unfold noEq. induction opt as [|c opt IH]; simpl; [done|].
  intros Hno. destruct (Ascii.eqb_spec c "="%char) as [->|Hc]; [tauto|].
  rewrite IH; [done|tauto].
Qed.

Lemma splitkv_inv opt k v ok :
  splitkv opt = (k, v, ok) →
  noEq k ∧ if ok then opt = k +:+ "=" +:+ v else opt = k ∧ v = EmptyString.
Proof.
  unfold noEq. revert k v ok. induction opt as [|c opt IH]; intros k v ok; simpl.
  { intros [= <- <- <-]. simpl. tauto. }
  destruct (Ascii.eqb_spec c "="%char) as [->|Hc].
  { intros [= <- <- <-]. simpl. tauto. }
  destruct (splitkv opt) as [[k0 v0] ok0]. intros [= <- <- <-].
  destruct (IH k0 v0 ok0 eq_refl) as [Hno Hopt]. split.
  - simpl. intros [?|?]; [congruence|tauto].
  - destruct ok0; [by rewrite Hopt|]. destruct Hopt as [-> ->]. done.
Qed.

(** X1.  [splitkv] cuts at the first ["="]: it answers [(k, v, true)]
    exactly for the strings [k=v] whose [k] has no ["="], and
    [(k, v, false)] exactly when the string has no ["="], [k] is the whole
    string and [v] is empty. *)
Theorem splitkv_round_trip opt k v :
  (splitkv opt = (k, v, true) ↔ opt = k +:+ "=" +:+ v ∧ noEq k)
  ∧ (splitkv opt = (k, v, false) ↔ k = opt ∧ v = EmptyString ∧ noEq opt).
Proof.
  split; split.
  - intros Hsplit. destruct (splitkv_inv _ _ _ _ Hsplit) as [Hno ->]. done.
  - intros [-> Hno]. by apply splitkv_cut.
  - intros Hsplit. destruct (splitkv_inv _ _ _ _ Hsplit) as [Hno [-> ->]]. done.
  - intros (-> & -> & Hno). by apply splitkv_whole.
Qed.

(** ** The forms of an option *)

Lemma peek_middle pre token post :
  peek {| cmdline := pre ++ token :: post; i := length pre |} = Ok token.
Proof. unfold peek. simpl. by rewrite list_lookup_middle. Qed.

Lemma peek_after pre token word post :
  peek (advance {| cmdline := pre ++ token :: word :: post; i := length pre |}) = Ok word.
Proof.
  unfold peek. simpl.
  rewrite (lookup_app_r pre) by lia.
  by replace (S (length pre) - length pre) with 1 by lia.
Qed.

Lemma hasNext_middle pre token word post :
  hasNext {| cmdline := pre ++ token :: word :: post; i := length pre |} = true.
Proof.
  unfold hasNext. apply bool_decide_eq_true. simpl. rewrite length_app. simpl. lia.
Qed.

Lemma parseOpt_found opt val optDefs optDef :
  optDefs !! opt = Some optDef → parseOpt opt val optDefs = lift (OptParse optDef val).
Proof. intros Hopt. unfold parseOpt. by rewrite Hopt. Qed.

(** X2.  A long option that takes a value reads the same value from
    [--name=value] and from [--name value]: the same parser is applied to
    the same string, with the same result or the same error; the second
    form moves the cursor onto the value token, whatever that token looks
    like. *)
Theorem long_option_forms_agree optDefs optDef name v pre post :
  noEq name →
  optDefs !! name = Some optDef →
  OptType optDef ≠ cmdkit.Bool →
  let joined := {| cmdline := pre ++ ("--" +:+ name +:+ "=" +:+ v) :: post;
                   i := length pre |} in
  let apart := {| cmdline := pre ++ ("--" +:+ name) :: v :: post; i := length pre |} in
  parseLongOpt joined optDefs
  = (val ← lift (OptParse optDef v); Ok (joined, (name, val)))
  ∧ parseLongOpt apart optDefs
    = (val ← lift (OptParse optDef v); Ok (advance apart, (name, val))).
Proof.
  intros Hno Hopt Hkind joined apart. split; unfold parseLongOpt.
  - unfold joined. rewrite peek_middle. unbind.
    change (string_drop 2 ("--" +:+ name +:+ "=" +:+ v)) with (name +:+ "=" +:+ v).
    rewrite (splitkv_cut _ _ Hno).
    by rewrite (parseOpt_found _ _ _ _ Hopt).
  - unfold apart. rewrite peek_middle. unbind.
    change (string_drop 2 ("--" +:+ name)) with name.
    rewrite (splitkv_whole _ Hno), Hopt.
    rewrite bool_decide_false by done.
    rewrite hasNext_middle, peek_after. unbind.
    by rewrite (parseOpt_found _ _ _ _ Hopt).
Qed.

(** X3.  A short flag that takes a value reads the same value from
    [-fvalue], from [-f value] and from [-f=value], for a value that is
    not empty and has no ["="]; only the second form moves the cursor. *)
Theorem short_option_forms_agree optDefs optDef c v pre post :
  c ≠ "="%char → v ≠ EmptyString → noEq v →
  optDefs !! String.String c EmptyString = Some optDef →
  OptType optDef ≠ cmdkit.Bool →
  let flag := String.String c EmptyString in
  let inline := {| cmdline := pre ++ ("-" +:+ flag +:+ v) :: post; i := length pre |} in
  let apart := {| cmdline := pre ++ ("-" +:+ flag) :: v :: post; i := length pre |} in
  let equals := {| cmdline := pre ++ ("-" +:+ flag +:+ "=" +:+ v) :: post;
                   i := length pre |} in
  parseShortOpts inline optDefs
  = (val ← lift (OptParse optDef v); Ok (inline, [{| Key := flag; Value := val |}]))
  ∧ parseShortOpts apart optDefs
    = (val ← lift (OptParse optDef v);
       Ok (advance apart, [{| Key := flag; Value := val |}]))
  ∧ parseShortOpts equals optDefs
    = (val ← lift (OptParse optDef v); Ok (equals, [{| Key := flag; Value := val |}])).
Proof.
  intros Hc Hv Hno Hopt Hkind flag inline apart equals.
  assert (noEq flag) as Hflag.
  { unfold noEq, flag. simpl. intros [?|[]]. congruence. }
  assert (noEq (String.String c v)) as Hcv.
  { unfold noEq in *. simpl. intros [?|?]; [congruence|tauto]. }
  repeat split; unfold parseShortOpts.
  - unfold inline. rewrite peek_middle. unbind.
    change (string_drop 1 ("-" +:+ flag +:+ v)) with (String.String c v).
    rewrite (splitkv_whole _ Hcv).
    cbn [parseShortFlags]. rewrite Hopt.
    rewrite bool_decide_false by done.
    rewrite (bool_decide_false (v = EmptyString)) by done. cbn [negb].
    rewrite (parseOpt_found _ _ _ _ Hopt).
    by destruct (OptParse optDef v).
  - unfold apart. rewrite peek_middle. unbind.
    change (string_drop 1 ("-" +:+ flag)) with flag.
    rewrite (splitkv_whole _ Hflag). unfold flag.
    cbn [parseShortFlags]. rewrite Hopt.
    rewrite bool_decide_false by done.
    rewrite (bool_decide_true (EmptyString = EmptyString)) by done. cbn [negb].
    rewrite hasNext_middle, peek_after. unbind.
    rewrite (parseOpt_found _ _ _ _ Hopt).
    by destruct (OptParse optDef v).
  - unfold equals. rewrite peek_middle. unbind.
    change (string_drop 1 ("-" +:+ flag +:+ "=" +:+ v)) with (flag +:+ "=" +:+ v).
    rewrite (splitkv_cut flag v Hflag).
    rewrite (parseOpt_found _ _ _ _ Hopt).
    by destruct (OptParse optDef v).
Qed.

Lemma parseShortFlags_booleans k ks st optDefs kvs :
  Forall (λ flag, ∃ optDef, optDefs !! flag = Some optDef
                            ∧ OptType optDef = cmdkit.Bool) (flagsOf ks) →
  parseShortFlags k ks st optDefs kvs
  = Ok (st, kvs ++ map (λ flag, {| Key := flag; Value := VBool true |}) (flagsOf ks)).
Proof.
  revert kvs. induction ks as [|c rest IH]; intros kvs Hall; cbn [parseShortFlags flagsOf].
  { by rewrite app_nil_r. }
  cbn [flagsOf] in Hall. apply Forall_cons in Hall as [(optDef & -> & Hkind) Hall].
  rewrite bool_decide_true by done. rewrite (IH _ Hall).
  by rewrite <- app_assoc.
Qed.

(** X4.  A token [-abc...] made of boolean flags only yields one entry per
    flag, in the order of the token, each with the value [true], and
    leaves the cursor where it is. *)
Theorem boolean_flags_token st optDefs ks :
  peek st = Ok ("-" +:+ ks) →
  noEq ks →
  Forall (λ flag, ∃ optDef, optDefs !! flag = Some optDef
                            ∧ OptType optDef = cmdkit.Bool) (flagsOf ks) →
  parseShortOpts st optDefs
  = Ok (st, map (λ flag, {| Key := flag; Value := VBool true |}) (flagsOf ks)).
Proof.
  intros Hpeek Hno Hall. unfold parseShortOpts. rewrite Hpeek. unbind.
  change (string_drop 1 ("-" +:+ ks)) with ks. rewrite (splitkv_whole _ Hno).
  by rewrite (parseShortFlags_booleans _ _ _ _ _ Hall).
Qed.

(** X5.  The short options of one token are set once each: when
    [setShortOpts] succeeds, every value that was set before is still
    there, unchanged, and each entry of the token has added a key of its
    own (no two entries name the same option, by whatever alias). *)
Theorem short_options_set_once optDefs kvs (opts opts' : gmap string value) :
  setShortOpts optDefs kvs opts = Ok opts' →
  opts ⊆ opts' ∧ size opts' = size opts + length kvs.
Proof.
  revert opts. induction kvs as [|kv kvs IH]; intros opts; cbn [setShortOpts].
  { intros [= <-]. simpl. split; [done|lia]. }
  destruct (optDefs !! Key kv) as [od|]; unbind; [|done]. simpl.
  destruct (opts !! OptName od) eqn:Hfresh; [done|].
  intros [Hsub Hsize]%IH. split.
  - etrans; [|exact Hsub]. by apply insert_subseteq.
  - rewrite Hsize, map_size_insert_None by done. simpl. lia.
Qed.

(** A literal string has no ["="]. *)
Ltac solve_noEq :=
  unfold noEq; simpl; intros H;
  repeat (destruct H as [H|H]; [discriminate H|]); destruct H.

Lemma long_option_forms_agree_witness :
  parseLongOpt {| cmdline := ["cat"] ++ ["--name=-v"]; i := 1 |} demoOptions
  = Ok ({| cmdline := ["cat"] ++ ["--name=-v"]; i := 1 |}, ("name", VString "-v"))
  ∧ parseLongOpt {| cmdline := ["cat"] ++ ["--name"; "-v"]; i := 1 |} demoOptions
    = Ok ({| cmdline := ["cat"] ++ ["--name"; "-v"]; i := 2 |}, ("name", VString "-v")).
Proof.
  refine (long_option_forms_agree demoOptions (stringOption "name" ["n"]) "name" "-v"
            ["cat"] [] _ eq_refl _).
  - solve_noEq.
  - discriminate.
Defined.

Lemma short_option_forms_agree_witness :
  parseShortOpts {| cmdline := [] ++ ["-nbob"]; i := 0 |} demoOptions
  = Ok ({| cmdline := [] ++ ["-nbob"]; i := 0 |}, [{| Key := "n"; Value := VString "bob" |}])
  ∧ parseShortOpts {| cmdline := [] ++ ["-n"; "bob"]; i := 0 |} demoOptions
    = Ok ({| cmdline := [] ++ ["-n"; "bob"]; i := 1 |},
          [{| Key := "n"; Value := VString "bob" |}])
  ∧ parseShortOpts {| cmdline := [] ++ ["-n=bob"]; i := 0 |} demoOptions
    = Ok ({| cmdline := [] ++ ["-n=bob"]; i := 0 |},
          [{| Key := "n"; Value := VString "bob" |}]).
Proof.
  refine (short_option_forms_agree demoOptions (stringOption "name" ["n"]) "n"%char "bob"
            [] [] _ _ _ eq_refl _).
  - discriminate.
  - discriminate.
  - solve_noEq.
  - discriminate.
Defined.

Lemma boolean_flags_token_witness :
  parseShortOpts {| cmdline := ["-xr"; "dir"]; i := 0 |} demoOptions
  = Ok ({| cmdline := ["-xr"; "dir"]; i := 0 |},
        [{| Key := "x"; Value := VBool true |}; {| Key := "r"; Value := VBool true |}]).
Proof.
  refine (boolean_flags_token {| cmdline := ["-xr"; "dir"]; i := 0 |} demoOptions "xr"
            eq_refl _ _).
  - solve_noEq.
  - repeat constructor.
    + exists (boolOption "x" []). split; reflexivity.
    + exists (boolOption "recursive" ["r"]). split; reflexivity.
Defined.

Lemma short_options_set_once_witness :
  ({["name" := VString "a"]} : gmap string value)
    ⊆ {["x" := VBool true; "name" := VString "a"]}
  ∧ size ({["x" := VBool true; "name" := VString "a"]} : gmap string value)
    = size ({["name" := VString "a"]} : gmap string value)
      + length [{| Key := "x"; Value := VBool true |}].
Proof.
  apply (short_options_set_once demoOptions [{| Key := "x"; Value := VBool true |}]).
  vm_compute. reflexivity.
Defined.

Section LoopFacts.
Context `{E : Env}.

(** ** What the loop over the command line keeps *)

Lemma parseTurn_kind root s param t :
  parseTurn root s param = Ok t → turnKind s param t.
Proof.
  unfold parseTurn. case_bool_decide; [intros [= <-]; by constructor|].
  destruct (HasPrefix param "--").
  { destruct (parseLongOpt (st s) (optDefs s)) as [[st1 [k v]]| |]; unbind; [|done..].
    destruct (opts s !! k); [done|].
    destruct (optDefs s !! k); [|done]. intros [= <-]. by apply turn_option. }
  destruct (HasPrefix param "-" && negb (bool_decide (param = "-"))).
  { destruct (parseShortOpts (st s) (optDefs s)) as [[st1 kvs]| |]; unbind; [|done..].
    destruct (setShortOpts (optDefs s) kvs (opts s)); [|done..].
    intros [= <-]. by apply turn_option. }
  destruct (Subcommands (cmd s) !! param) as [sub|] eqn:Hsub.
  - destruct (GetOptions root (path s ++ [param])); unbind; [done|].
    destruct (External sub) eqn:Hext; intros [= <-]; by econstructor.
  - case_bool_decide as Hroot; [done|]. intros [= <-].
    apply turn_positional; [done|]. by destruct (path s).
Qed.

(** An invariant [P] of the turns and what it gives at the end, [Q]. *)
Lemma parseLoop_invariant (P Q : parseVars → Prop) root :
  (∀ s, P s → done (st s) = true → Q s) →
  (∀ s param t, P s → done (st s) = false → peek (st s) = Ok param →
     parseTurn root s param = Ok (Next t) → P (withState t (advance (st t)))) →
  (∀ s param t, P s → done (st s) = false → peek (st s) = Ok param →
     parseTurn root s param = Ok (BreakL t) → Q t) →
  ∀ fuel s s', P s → parseLoop fuel root s = Ok s' → Q s'.
Proof.
  intros Hend Hnext Hbreak. induction fuel as [|fuel IH]; intros s s' HP;
    cbn [parseLoop]; destruct (done (st s)) eqn:Hdone.
  - intros [= <-]. by apply Hend.
  - done.
  - intros [= <-]. by apply Hend.
  - destruct (peek (st s)) as [param| |] eqn:Hpeek; unbind; [|done..].
    destruct (parseTurn root s param) as [[t|t]| |] eqn:Hturn; unbind; [| |done..].
    + apply IH. by eapply Hnext.
    + intros [= <-]. by eapply Hbreak.
Qed.

Lemma resolve_snoc c path c' name sub :
  resolve c path = Some c' → Subcommands c' !! name = Some sub →
  resolve c (path ++ [name]) = Some sub.
Proof.
  revert c. induction path as [|n path IH]; intros c; simpl.
  - intros [= ->] ->. done.
  - destruct (Subcommands c !! n); [apply IH|done].
Qed.

Lemma parseLoop_resolve fuel root s s' :
  resolve root (path s) = Some (cmd s) →
  parseLoop fuel root s = Ok s' →
  resolve root (path s') = Some (cmd s').
Proof.
  apply (parseLoop_invariant (λ s, resolve root (path s) = Some (cmd s))
           (λ s, resolve root (path s) = Some (cmd s))); [done| |].
  - intros s0 param t HP _ _ Hturn%parseTurn_kind.
    inversion Hturn as [|t0 Hp Ha Hc Ho| sub table Hsub Hext | |Hsub Hne]; subst; simpl.
    + by rewrite Hp, Hc.
    + by eapply resolve_snoc.
    + done.
  - intros s0 param t HP _ _ Hturn%parseTurn_kind.
    inversion Hturn as [Hparam| | |sub table Hsub Hext|]; subst; simpl; [done|].
    by eapply resolve_snoc.
Qed.

(** X6.  After a successful [parse] the command of the request is the one
    that the path of the request leads to from the root, child by
    child. *)
Theorem parse_command_at_path req cmdline root req' :
  parse req cmdline root = Ok req' →
  req_Root req' = Some root
  ∧ ∃ c, req_Command req' = Some c ∧ resolve root (req_Path req') = Some c.
Proof.
  unfold parse. destruct (GetOptions root []) as [e|optDefs0]; unbind; [done|].
  destruct (parseLoop _ _ _) as [s| |] eqn:Hloop; unbind; [|done..].
  intros [= <-]. simpl. split; [done|]. exists (cmd s). split; [done|].
  by apply (parseLoop_resolve (length cmdline) root (parseStart cmdline root optDefs0) s).
Qed.

Lemma sublist_take_le {A} (l : list A) n m :
  n ≤ m → take n l `sublist_of` take m l.
Proof.
  intros Hle. replace (take n l) with (take n (take m l)).
  - apply sublist_take.
  - rewrite take_take. f_equal. lia.
Qed.

Lemma sublist_rest {A} (l1 l : list A) n x :
  l !! n = Some x → l1 `sublist_of` take n l →
  l1 ++ drop (n + 1) l `sublist_of` l.
Proof.
  intros Hx Hsub. rewrite <- (take_drop_middle l n x Hx) at 2.
  apply sublist_app; [done|]. apply sublist_cons. by rewrite Nat.add_1_r.
Qed.

Lemma parseLoop_tokens fuel root s s' :
  i (st s) ≤ length (cmdline (st s)) →
  args s `sublist_of` take (i (st s)) (cmdline (st s)) →
  path s `sublist_of` take (i (st s)) (cmdline (st s)) →
  parseLoop fuel root s = Ok s' →
  args s' `sublist_of` cmdline (st s) ∧ path s' `sublist_of` cmdline (st s).
Proof.
  intros Hi Hargs Hpath.
  set (cl := cmdline (st s)).
  apply (parseLoop_invariant
           (λ s, cmdline (st s) = cl ∧ i (st s) ≤ length cl
                 ∧ args s `sublist_of` take (i (st s)) cl
                 ∧ path s `sublist_of` take (i (st s)) cl)
           (λ s, args s `sublist_of` cl ∧ path s `sublist_of` cl)); [| | |done].
  - intros s0 (_ & _ & Ha & Hp) _.
    split; (etrans; [eassumption|apply sublist_take]).
  - intros s0 param t (Hcl & Hlen & Ha & Hp) Hdone Hpeek Hturn.
    assert (i (st s0) < length (cmdline (st s0))) as Hlt.
    { revert Hdone. unfold done. case_bool_decide; [done|lia]. }
    destruct (parseTurn_cursor _ _ _ _ Hturn Hlt) as (Hcmd & Hlo & Hhi).
    assert (cl !! i (st s0) = Some param) as Hparam.
    { revert Hpeek. unfold peek. rewrite Hcl.
      destruct (cl !! i (st s0)); [by intros [= ->]|done]. }
    simpl. rewrite Hcmd, Hcl in *. split; [done|]. split; [lia|].
    apply parseTurn_kind in Hturn.
    inversion Hturn as [|t0 Hp' Ha' Hc' Ho'| sub table Hsub Hext | |Hsub Hne];
      subst; simpl in *.
    + rewrite Hp', Ha'.
      split; (etrans; [eassumption|apply sublist_take_le; lia]).
    + rewrite (take_S_r _ _ _ Hparam). split.
      * by apply sublist_inserts_r.
      * by apply sublist_app.
    + rewrite (take_S_r _ _ _ Hparam). split.
      * by apply sublist_app.
      * by apply sublist_inserts_r.
  - intros s0 param t (Hcl & Hlen & Ha & Hp) Hdone Hpeek Hturn.
    assert (cl !! i (st s0) = Some param) as Hparam.
    { revert Hpeek. unfold peek. rewrite Hcl.
      destruct (cl !! i (st s0)); [by intros [= ->]|done]. }
    apply parseTurn_kind in Hturn.
    inversion Hturn as [Hdd| | |sub table Hsub Hext|]; subst; simpl; rewrite Hcl.
    + split; [by eapply sublist_rest|].
      etrans; [eassumption|apply sublist_take].
    + split; [by eapply sublist_rest|].
      etrans; [|apply (sublist_take _ (S (i (st s0))))].
      rewrite (take_S_r _ _ _ Hparam). by apply sublist_app.
Qed.

(** X7.  After a successful [parse] the positional arguments are tokens of
    the command line, in the order of the command line, and so are the
    names of the path. *)
Theorem parse_tokens_in_order req cmdline root req' :
  parse req cmdline root = Ok req' →
  req_Arguments req' `sublist_of` cmdline ∧ req_Path req' `sublist_of` cmdline.
Proof.
  unfold parse. destruct (GetOptions root []) as [e|optDefs0]; unbind; [done|].
  destruct (parseLoop _ _ _) as [s| |] eqn:Hloop; unbind; [|done..].
  intros [= <-]. simpl.
  apply (parseLoop_tokens (length cmdline) root (parseStart cmdline root optDefs0) s);
    simpl; [lia|apply sublist_nil_l..|done].
Qed.

(** ** Option keys *)

Lemma setShortOpts_keys optDefs kvs (opts opts' : gmap string value) key v :
  setShortOpts optDefs kvs opts = Ok opts' →
  opts' !! key = Some v →
  opts !! key = Some v
  ∨ ∃ alias optDef, optDefs !! alias = Some optDef ∧ OptName optDef = key.
Proof.
  revert opts. induction kvs as [|kv kvs IH]; intros opts; cbn [setShortOpts].
  { intros [= <-]. by left. }
  destruct (optDefs !! Key kv) as [od|] eqn:Hod; unbind; [|done]. simpl.
  destruct (opts !! OptName od); [done|].
  intros Hrest Hkey. destruct (IH _ Hrest Hkey) as [Hin|?]; [|by right].
  rewrite lookup_insert in Hin. case_decide as Hname; [|by left].
  right. by exists (Key kv), od.
Qed.

Lemma parseTurn_keys root s param t key v :
  GetOptions root (path s) = inr (optDefs s) →
  parseTurn root s param = Ok (Next t) ∨ parseTurn root s param = Ok (BreakL t) →
  GetOptions root (path t) = inr (optDefs t)
  ∧ (opts t !! key = Some v →
     opts s !! key = Some v
     ∨ ∃ alias optDef, optDefs s !! alias = Some optDef ∧ OptName optDef = key).
Proof.
  intros Htable. unfold parseTurn. case_bool_decide.
  { intros [[=]|[= <-]]. simpl. eauto. }
  destruct (HasPrefix param "--").
  { destruct (parseLongOpt (st s) (optDefs s)) as [[st1 [k val]]| |]; unbind;
      [|by intros [|]..].
    destruct (opts s !! k); [by intros [|]|].
    destruct (optDefs s !! k) as [od|] eqn:Hod; [|by intros [|]].
    intros [[= <-]|[=]]. simpl. split; [done|].
    rewrite lookup_insert. case_decide; [|by left].
    intros _. right. by exists k, od. }
  destruct (HasPrefix param "-" && negb (bool_decide (param = "-"))).
  { destruct (parseShortOpts (st s) (optDefs s)) as [[st1 kvs]| |]; unbind;
      [|by intros [|]..].
    destruct (setShortOpts (optDefs s) kvs (opts s)) as [opts'| |] eqn:Hset;
      [|by intros [|]..].
    intros [[= <-]|[=]]. simpl. split; [done|]. by eapply setShortOpts_keys. }
  destruct (Subcommands (cmd s) !! param) as [sub|].
  - destruct (GetOptions root (path s ++ [param])) eqn:Hnew; unbind; [by intros [|]|].
    destruct (External sub); intros [[= <-]|[= <-]]; simpl; eauto.
  - case_bool_decide; [by intros [|]|]. intros [[= <-]|[=]]. simpl. eauto.
Qed.

(** X8.  After a successful [parse] every key of the option values is the
    canonical name of an option that the option table of some path shows,
    never an alias as it was typed. *)
Theorem parse_options_canonical req cmdline root req' key v :
  parse req cmdline root = Ok req' →
  req_Options req' !! key = Some v →
  ∃ path table alias optDef,
    GetOptions root path = inr table ∧ table !! alias = Some optDef
    ∧ OptName optDef = key.
Proof.
  unfold parse. destruct (GetOptions root []) as [e|optDefs0] eqn:Hroot; unbind; [done|].
  destruct (parseLoop _ _ _) as [s| |] eqn:Hloop; unbind; [|done..].
  intros [= <-]. simpl. revert key v.
  set (canonical := λ s : parseVars,
         GetOptions root (path s) = inr (optDefs s)
         ∧ ∀ key v, opts s !! key = Some v →
             ∃ path table alias optDef,
               GetOptions root path = inr table ∧ table !! alias = Some optDef
               ∧ OptName optDef = key).
  assert (canonical s) as [_ Hs]; [|done].
  assert (∀ s0 param t,
            canonical s0 →
            parseTurn root s0 param = Ok (Next t) ∨ parseTurn root s0 param = Ok (BreakL t) →
            canonical t) as Hturn.
  { intros s0 param t [Htable Hkeys] Ht. split.
    - by destruct (parseTurn_keys root s0 param t "" (VBool true) Htable Ht).
    - intros key v Hkey.
      destruct (parseTurn_keys root s0 param t key v Htable Ht) as [_ Hfrom].
      destruct (Hfrom Hkey) as [Hold|(alias & od & Halias & Hname)]; [by eapply Hkeys|].
      by exists (path s0), (optDefs s0), alias, od. }
  refine (parseLoop_invariant canonical canonical root _ _ _ (length cmdline)
            (parseStart cmdline root optDefs0) s _ Hloop).
  - done.
  - intros s0 param t Hs0 _ _ Ht. apply (Hturn s0 param t Hs0). by left.
  - intros s0 param t Hs0 _ _ Ht. apply (Hturn s0 param t Hs0). by right.
  - split; [done|]. intros key v. simpl. by rewrite lookup_empty.
Qed.

(** ** The token after a prefix that is parsed to its end *)

Lemma parseLoop_prefix root pre optDefs0 s :
  parseLoop (length pre) root (parseStart pre root optDefs0) = Ok s →
  done (st s) = true →
  cmdline (st s) = pre ∧ i (st s) = length pre.
Proof.
  intros Hloop Hdone.
  destruct (parseLoop_cursor _ _ _ _ Hloop) as [Hcmd Hi]; [simpl; lia|].
  simpl in Hcmd, Hi. split; [done|].
  revert Hdone. unfold done. rewrite Hcmd. case_bool_decide; [lia|done].
Qed.

(** The loop over [pre ++ token :: post], when it runs over [pre] to its
    end and the turn at [token] does not go on: the outcome is the one of
    that turn. *)
Lemma parseLoop_then root pre token post optDefs0 s :
  parseLoop (length pre) root (parseStart pre root optDefs0) = Ok s →
  done (st s) = true →
  ∀ r, match parseTurn root (extendVars (token :: post) s) token with
       | Ok (BreakL t) => r = Ok t
       | Ok (Next _) => False
       | Fail e => r = Fail e
       | Abort => False
       end →
  parseLoop (length (pre ++ token :: post)) root
    (parseStart (pre ++ token :: post) root optDefs0) = r.
Proof.
  intros Hloop Hdone r Hturn.
  destruct (parseLoop_prefix _ _ _ _ Hloop Hdone) as [Hcmd Hend].
  change (parseStart (pre ++ token :: post) root optDefs0)
    with (extendVars (token :: post) (parseStart pre root optDefs0)).
  apply (parseLoop_extend (token :: post) root (length pre) _ s); [done..| |].
  - intros k. cbn [parseLoop].
    assert (done (st (extendVars (token :: post) s)) = false) as ->.
    { unfold done. simpl. rewrite Hcmd, Hend, length_app. simpl.
      apply bool_decide_eq_false. lia. }
    assert (peek (st (extendVars (token :: post) s)) = Ok token) as ->.
    { unfold peek. simpl. rewrite Hcmd, Hend. by rewrite list_lookup_middle. }
    unbind.
    destruct (parseTurn root (extendVars (token :: post) s) token) as [[t|t]| |];
      unbind; by subst.
  - rewrite length_app. simpl. lia.
Qed.

Lemma HasPrefix_dash token :
  HasPrefix token "-" = false →
  token ≠ "--" ∧ HasPrefix token "--" = false.
Proof.
  unfold HasPrefix. destruct token as [|c token]; cbn [String.prefix]; [by split|].
  destruct (Ascii.ascii_dec "-" c) as [<-|Hc]; [by destruct token|].
  intros _. split; [congruence|done].
Qed.

(** X9.  A token that is not an option and names an external child of the
    current command ends the parse: the child is entered and every token
    after it becomes a positional argument as it is, options and [--]
    included.  The option table of the child is asked for all the same. *)
Theorem parse_external_rest root req pre token post optDefs0 s sub table :
  GetOptions root [] = inr optDefs0 →
  parseLoop (length pre) root (parseStart pre root optDefs0) = Ok s →
  done (st s) = true →
  HasPrefix token "-" = false →
  Subcommands (cmd s) !! token = Some sub →
  External sub = true →
  GetOptions root (path s ++ [token]) = inr table →
  parse req (pre ++ token :: post) root
  = Ok {| req_Root := Some root; req_Command := Some sub;
          req_Path := path s ++ [token]; req_Arguments := args s ++ post;
          req_Options := opts s; req_Files := req_Files req |}.
Proof.
  intros Hroot Hloop Hdone Hdash Hsub Hext Htable.
  destruct (HasPrefix_dash _ Hdash) as [Hdd Hlong].
  destruct (parseLoop_prefix _ _ _ _ Hloop Hdone) as [Hcmd Hend].
  unfold parse. rewrite Hroot. unbind.
  rewrite (parseLoop_then root pre token post optDefs0 s Hloop Hdone
             (Ok {| path := path s ++ [token]; args := args s ++ post; opts := opts s;
                    cmd := sub; optDefs := table;
                    st := extendState (token :: post) (st s) |})); [done|].
  unfold parseTurn. rewrite bool_decide_false by done. rewrite Hlong.
  assert (HasPrefix token "-" && negb (bool_decide (token = "-")) = false) as ->.
  { by rewrite Hdash. }
  cbn [extendVars withState cmd path]. rewrite Hsub, Htable. unbind.
  rewrite Hext. do 3 f_equal. simpl. rewrite Hcmd, Hend.
  by rewrite <- drop_drop, drop_app_length.
Qed.

(** X10.  A long option that takes a value and stands last on the command
    line, without ["="], fails with "missing argument for option",
    whatever was parsed before it. *)
Theorem parse_missing_value root req pre name optDefs0 s optDef :
  GetOptions root [] = inr optDefs0 →
  parseLoop (length pre) root (parseStart pre root optDefs0) = Ok s →
  done (st s) = true →
  name ≠ EmptyString → noEq name →
  optDefs s !! name = Some optDef →
  OptType optDef ≠ cmdkit.Bool →
  parse req (pre ++ ["--" +:+ name]) root = Fail (ErrMissingArgument name).
Proof.
  intros Hroot Hloop Hdone Hname Hno Hopt Hkind.
  destruct (parseLoop_prefix _ _ _ _ Hloop Hdone) as [Hcmd Hend].
  unfold parse. rewrite Hroot. unbind.
  rewrite (parseLoop_then root pre ("--" +:+ name) [] optDefs0 s Hloop Hdone
             (Fail (ErrMissingArgument name))); [done|].
  unfold parseTurn.
  rewrite bool_decide_false by (destruct name; [done|discriminate]).
  assert (HasPrefix ("--" +:+ name) "--" = true) as -> by (by destruct name).
  unfold parseLongOpt. cbn [extendVars withState st optDefs].
  assert (peek (extendState ["--" +:+ name] (st s)) = Ok ("--" +:+ name)) as ->.
  { unfold peek. simpl. rewrite Hcmd, Hend. by rewrite list_lookup_middle. }
  unbind. change (string_drop 2 ("--" +:+ name)) with name.
  rewrite (splitkv_whole _ Hno), Hopt. rewrite bool_decide_false by done.
  assert (hasNext (extendState ["--" +:+ name] (st s)) = false) as ->.
  { unfold hasNext. simpl. rewrite Hcmd, Hend, length_app. simpl.
    apply bool_decide_eq_false. lia. }
  done.
Qed.

Lemma parseLoop_root_args fuel root s s' :
  (path s = [] → args s = []) →
  parseLoop fuel root s = Ok s' →
  done (st s') = true → path s' = [] → args s' = [].
Proof.
  apply (parseLoop_invariant (λ s, path s = [] → args s = [])
           (λ s, done (st s) = true → path s = [] → args s = [])); [auto| |].
  - intros s0 param t HP _ _ Hturn%parseTurn_kind.
    inversion Hturn as [|t0 Hp Ha Hc Ho| sub table Hsub Hext | |Hsub Hne]; subst; simpl.
    + rewrite Hp, Ha. done.
    + intros Hnil. by destruct (path s0).
    + intros Hnil. by destruct Hne.
  - intros s0 param t HP Hdone _ Hturn%parseTurn_break. rewrite Hturn. congruence.
Qed.

(** X11.  As long as no sub-command has been entered, a word that is not an
    option must name a child of the root: otherwise [parse] fails with the
    unrecognized-command error, which carries that word alone and the
    root, whatever options came before it and whatever comes after it. *)
Theorem parse_unrecognized_word root req pre token post optDefs0 s :
  GetOptions root [] = inr optDefs0 →
  parseLoop (length pre) root (parseStart pre root optDefs0) = Ok s →
  done (st s) = true →
  path s = [] →
  HasPrefix token "-" = false →
  Subcommands root !! token = None →
  parse req (pre ++ token :: post) root = Fail (ErrSuggestions [token] root).
Proof.
  intros Hroot Hloop Hdone Hpath Hdash Hsub.
  destruct (HasPrefix_dash _ Hdash) as [Hdd Hlong].
  assert (args s = []) as Hargs.
  { by apply (parseLoop_root_args (length pre) root (parseStart pre root optDefs0) s). }
  assert (cmd s = root) as Hcmd.
  { pose proof (parseLoop_resolve (length pre) root (parseStart pre root optDefs0) s
                  eq_refl Hloop) as Hres.
    rewrite Hpath in Hres. simpl in Hres. congruence. }
  unfold parse. rewrite Hroot. unbind.
  rewrite (parseLoop_then root pre token post optDefs0 s Hloop Hdone
             (Fail (ErrSuggestions [token] root))); [done|].
  unfold parseTurn. rewrite bool_decide_false by done. rewrite Hlong.
  assert (HasPrefix token "-" && negb (bool_decide (token = "-")) = false) as ->.
  { by rewrite Hdash. }
  cbn [extendVars withState cmd path args]. rewrite Hcmd, Hsub, Hpath, Hargs.
  by rewrite bool_decide_true.
Qed.

End LoopFacts.

Section ArgsFacts.
Context `{E : Env}.

(** ** String slots *)

Lemma getArgDef_elem j argDefs argDef :
  getArgDef j argDefs = Some argDef → argDef ∈ argDefs.
Proof.
  unfold getArgDef. case_bool_decide; [by apply list_elem_of_lookup_2|].
  case_bool_decide; [by apply list_elem_of_lookup_2|done].
Qed.

Lemma fillString_inputs argDef fillingVariadic v inputs' strs files sin :
  fillString argDef fillingVariadic v = Ok (inputs', strs, files, sin) →
  strs ++ inputs' = stringArgs v ++ inputs v
  ∧ length inputs' = length (inputs v) - 1.
Proof.
  unfold fillString. destruct (inputs v) as [|input rest].
  - destruct (_ && _).
    + destruct (maybeWrapStdin (stdin v)); [|by intros [= <- <- <- <-]|done].
      destruct (stdin v); unbind; [|done]. by intros [= <- <- <- <-].
    + by intros [= <- <- <- <-].
  - intros [= <- <- <- <-]. simpl. rewrite <- app_assoc. split; [done|lia].
Qed.

Lemma argsTurn_strings req argDefs remInputs v v' :
  Forall (λ argDef, ArgType argDef = ArgString) argDefs →
  argsTurn req argDefs remInputs v = Ok v' →
  stringArgs v' ++ inputs v' = stringArgs v ++ inputs v
  ∧ length (inputs v') = length (inputs v) - 1.
Proof.
  intros Hall. unfold argsTurn.
  destruct (skipOptional _ _ _ _ _) as [j| |]; unbind; [|done..].
  destruct (getArgDef j argDefs) as [argDef|] eqn:Hdef; [|done].
  apply getArgDef_elem in Hdef.
  rewrite Forall_forall in Hall. rewrite (Hall _ Hdef).
  destruct (fillString argDef _ v) as [[[[inputs' strs] files] sin]| |] eqn:Hfill;
    unbind; [|done..].
  intros [= <-]. simpl. by eapply fillString_inputs.
Qed.

Lemma argsLoop_strings req argDefs n v v' :
  Forall (λ argDef, ArgType argDef = ArgString) argDefs →
  argsLoop n req argDefs v = Ok v' →
  stringArgs v' ++ inputs v' = stringArgs v ++ inputs v
  ∧ length (inputs v') = length (inputs v) - n.
Proof.
  intros Hall. revert v. induction n as [|n IH]; intros v; cbn [argsLoop].
  { intros [= <-]. split; [done|lia]. }
  destruct (argsTurn req argDefs _ v) as [v1| |] eqn:Hturn; unbind; [|done..].
  intros [Hstr Hlen]%IH.
  destruct (argsTurn_strings _ _ _ _ _ Hall Hturn) as [Hstr1 Hlen1].
  split; [congruence|lia].
Qed.

(** X12.  A command whose slots are all plain strings: when the
    distribution succeeds, the positional arguments of the request are the
    tokens that were collected, all of them and in the same order,
    whatever the slots require and whether standard input is there or
    not. *)
Theorem parseArgs_strings_kept req root stdin0 c req' :
  req_Command req = Some c →
  Forall (λ argDef, ArgType argDef = ArgString) (Arguments c) →
  parseArgs req root stdin0 = Ok req' →
  req_Arguments req' = req_Arguments req.
Proof.
  intros Hc Hall. unfold parseArgs. rewrite Hc. unbind.
  destruct (_ && _); [done|].
  destruct (argsLoop _ _ _ _) as [v| |] eqn:Hloop; unbind; [|done..].
  destruct (missingRequired _ _); [done|]. intros [= <-]. simpl.
  destruct (argsLoop_strings _ _ _ _ _ Hall Hloop) as [Hstr Hlen]. simpl in Hstr, Hlen.
  assert (inputs v = []) as Hnil.
  { apply length_zero_iff_nil. rewrite Hlen. unfold numInputs.
    destruct (_ && _); lia. }
  rewrite Hnil, app_nil_r in Hstr. done.
Qed.

(** ** Required slots *)

Lemma argsTurn_remRequired req argDefs remInputs v v' :
  argsTurn req argDefs remInputs v = Ok v' → (remRequired v - 1 ≤ remRequired v')%Z.
Proof.
  unfold argsTurn.
  destruct (skipOptional _ _ _ _ _) as [j| |]; unbind; [|done..].
  destruct (getArgDef j argDefs) as [argDef|]; [|done].
  destruct (ArgType argDef).
  - destruct (fillString argDef _ v) as [[[[inputs' strs] files] sin]| |];
      unbind; [|done..].
    intros [= <-]. simpl. destruct (Required argDef); lia.
  - destruct (fillFile req argDef _ v) as [[[[inputs' strs] files] sin]| |];
      unbind; [|done..].
    intros [= <-]. simpl. destruct (Required argDef); lia.
Qed.

Lemma argsLoop_remRequired req argDefs n v v' :
  argDefs ≠ [] → argsInv argDefs v →
  argsLoop n req argDefs v = Ok v' →
  argsInv argDefs v' ∧ (remRequired v - Z.of_nat n ≤ remRequired v')%Z.
Proof.
  intros Hne. revert v. induction n as [|n IH]; intros v Hinv; cbn [argsLoop].
  { intros [= <-]. split; [done|lia]. }
  destruct (argsTurn_returns req argDefs (Z.of_nat (S n)) v) as [_ Hinv'];
    [done|lia|done|].
  destruct (argsTurn req argDefs _ v) as [v1| |] eqn:Hturn; unbind; [|done..].
  intros [Hv' Hrem]%IH; [|by apply Hinv'].
  pose proof (argsTurn_remRequired _ _ _ _ _ Hturn). split; [done|lia].
Qed.

Lemma find_Required_ahead n argDefs :
  (0 < requiredFrom n argDefs)%Z → is_Some (List.find Required (drop n argDefs)).
Proof.
  unfold requiredFrom. induction (drop n argDefs) as [|argDef l IH]; simpl; [lia|].
  destruct (Required argDef); [eauto|done].
Qed.

(** X13.  Without standard input, fewer positional tokens than required
    slots never pass: [parseArgs] returns an error. *)
Theorem parseArgs_too_few req root c :
  req_Command req = Some c →
  length (req_Arguments req) < length (List.filter Required (Arguments c)) →
  ∃ e, parseArgs req root None = Fail e.
Proof.
  intros Hc Hfew. unfold parseArgs. rewrite Hc. unbind.
  destruct (_ && _); [eauto|].
  assert (Arguments c ≠ []) as Hne.
  { intros Hnil. rewrite Hnil in Hfew. simpl in Hfew. lia. }
  assert (argsInv (Arguments c) (argsStart (Arguments c) (req_Arguments req) None))
    as Hinv.
  { split; [done|]. unfold argsStart, requiredFrom. cbn [iArgDef remRequired].
    change (Z.to_nat 0) with 0. rewrite drop_0. lia. }
  assert (numInputs (Arguments c) (req_Arguments req) None = length (req_Arguments req))
    as ->.
  { unfold numInputs. by rewrite andb_false_r. }
  pose proof (argsLoop_returns req (Arguments c) (length (req_Arguments req)) _ Hne Hinv)
    as Hret.
  pose proof (argsLoop_without_stdin req (Arguments c) (length (req_Arguments req))
                (argsStart (Arguments c) (req_Arguments req) None)) as Hstdin.
  destruct (argsLoop _ _ _ _) as [v|e|] eqn:Hloop; unbind; [|eauto|done].
  destruct (argsLoop_remRequired _ _ _ _ _ Hne Hinv Hloop) as [[Hj Hreq] Hrem].
  simpl in Hrem. destruct Hstdin as [Hnone _]; [done|].
  assert (pretendStdin (Arguments c) v = iArgDef v) as ->.
  { unfold pretendStdin. rewrite Hnone.
    rewrite (bool_decide_false (is_Some None)) by (by intros [? ?]).
    by rewrite andb_false_r. }
  assert (0 < requiredFrom (Z.to_nat (iArgDef v)) (Arguments c))%Z as Hpos by lia.
  pose proof (requiredFrom_inside _ _ Hpos).
  unfold missingRequired. rewrite bool_decide_true by lia.
  destruct (find_Required_ahead _ _ Hpos) as [argDef ->]. eauto.
Qed.

(** X14.  The distribution writes the positional arguments and the files
    of the request and nothing else: root, command, path and options come
    out as they went in. *)
Theorem parseArgs_writes_arguments_only req root stdin0 req' :
  parseArgs req root stdin0 = Ok req' →
  req_Root req' = req_Root req ∧ req_Command req' = req_Command req
  ∧ req_Path req' = req_Path req ∧ req_Options req' = req_Options req.
Proof. intros Hargs. by destruct (parseArgs_keeps _ _ _ _ Hargs) as (_ & ? & ? & ? & ?). Qed.

(** ** No run-time failure *)

(** X15.  [parse] always returns, a request or an error: it reads no
    token beyond the end of the command line, calls no method of an option
    that is not in the table, and its loop moves forward at every turn. *)
Theorem parse_never_fails_to_return req cmdline root :
  (∃ req', parse req cmdline root = Ok req') ∨ (∃ e, parse req cmdline root = Fail e).
Proof.
  pose proof (parse_returns req cmdline root).
  destruct (parse req cmdline root); [left|right|done]; eauto.
Qed.

(** X16.  [parseArgs] always returns, a request or an error, once the
    request has a command: its loop never looks at a slot of a command
    without slots, and the inner loop that steps over optional slots always
    meets a required one. *)
Theorem parseArgs_never_fails_to_return req root stdin0 c :
  req_Command req = Some c →
  (∃ req', parseArgs req root stdin0 = Ok req')
  ∨ (∃ e, parseArgs req root stdin0 = Fail e).
Proof.
  intros Hc. pose proof (parseArgs_returns req root stdin0 ltac:(eauto)).
  destruct (parseArgs req root stdin0); [left|right|done]; eauto.
Qed.

(** ** Standard input *)

Lemma reads_done n f message stderr :
  reads n (messageReader f true message) stderr = (messageReader f true message, stderr).
Proof. induction n as [|n IH]; [done|]. simpl. apply IH. Qed.

Lemma reads_file n f stderr : reads n (fileReader f) stderr = (fileReader f, stderr).
Proof. induction n as [|n IH]; [done|]. simpl. apply IH. Qed.

(** X17.  The reader that [maybeWrapStdin] makes for a file whose status
    can be read: if the file is a character device, the first [Read]
    prints the notice, which names the file, and no later [Read] prints
    anything; otherwise no [Read] prints anything.  Every [Read] and
    [Close] goes to the file itself. *)
Theorem stdin_notice_once f fInfo :
  FileStat f = inr fInfo →
  ∃ r, maybeWrapStdin (Some f) = Ok r
    ∧ Close r = f
    ∧ (∀ stderr, (Read r stderr).2 = f)
    ∧ ∀ n stderr,
        (reads (S n) r stderr).2
        = if ModeCharDevice fInfo then stderr ++ [msgStdinInfo (FileName f)]
          else stderr.
Proof.
  intros Hstat. unfold maybeWrapStdin, isTty. rewrite Hstat. unbind.
  destruct (ModeCharDevice fInfo); eexists; (split; [done|]); simpl;
    (split; [done|]); (split; [done|]); intros n stderr.
  - by rewrite reads_done.
  - by rewrite reads_file.
Qed.

(** X18.  The token [-] on a file slot stands for standard input: with a
    stdin handle whose status can be read, the file is a stream node over
    that handle, under the key that the stdin-name option gives (the empty
    string when it is not set), and neither the filesystem nor the URL
    parser is consulted; without a handle the token fails with
    [os.ErrInvalid]. *)
Theorem dash_is_stdin req argDef f fInfo :
  FileStat f = inr fInfo →
  resolveFile req argDef (Some f) "-"
  = Ok (stdinName req,
        ReaderFile (FileName f)
          (if ModeCharDevice fInfo
           then newMessageReader f (msgStdinInfo (FileName f))
           else fileReader f))
  ∧ resolveFile req argDef None "-" = Fail ErrInvalid.
Proof.
  intros Hstat. unfold resolveFile. rewrite bool_decide_true by done.
  unfold maybeWrapStdin, isTty. rewrite Hstat. unbind.
  by destruct (ModeCharDevice fInfo).
Qed.

(** ** String slots without standard input *)

Lemma skipOptional_required fuel argDefs remInputs remRequired j :
  (0 ≤ j)%Z → (0 < remInputs)%Z →
  (remRequired ≤ requiredFrom (Z.to_nat j) argDefs)%Z →
  length argDefs - Z.to_nat j ≤ fuel →
  ∃ j', skipOptional fuel argDefs remInputs remRequired j = Ok j'
    ∧ (j ≤ j')%Z
    ∧ requiredFrom (Z.to_nat j') argDefs = requiredFrom (Z.to_nat j) argDefs
    ∧ ((remInputs ≤ remRequired)%Z →
       Z.to_nat j' < length argDefs
       ∧ ∃ argDef, argDefs !! Z.to_nat j' = Some argDef ∧ Required argDef = true).
Proof.
  revert j. induction fuel as [|fuel IH]; intros j Hj Hin Hreq Hfuel;
    cbn [skipOptional]; case_bool_decide as Hle;
    try (exists j; split; [done|]; split; [lia|]; split; [done|]; intros; lia).
  - pose proof (requiredFrom_inside (Z.to_nat j) argDefs). lia.
  - pose proof (requiredFrom_inside (Z.to_nat j) argDefs ltac:(lia)) as Hlt.
    rewrite getArgDef_inside by done.
    destruct (lookup_lt_is_Some_2 argDefs _ Hlt) as [argDef Hdef].
    rewrite Hdef. unbind.
    destruct (Required argDef) eqn:Hr; simpl.
    { exists j. split; [done|]. split; [lia|]. split; [done|].
      intros _. split; [done|]. by exists argDef. }
    pose proof (requiredFrom_step _ _ _ Hdef) as Hstep. rewrite Hr in Hstep.
    destruct (IH (j + 1)%Z) as (j' & Hskip & Hjj & Hsame & Hpick); [lia|done| |lia|].
    { replace (Z.to_nat (j + 1)) with (S (Z.to_nat j)) by lia. lia. }
    replace (Z.to_nat (j + 1)) with (S (Z.to_nat j)) in Hsame by lia.
    exists j'. split; [done|]. split; [lia|]. split; [lia|]. done.
Qed.

Lemma argsTurn_strings_ok req argDefs n v :
  argDefs ≠ [] →
  Forall (λ argDef, ArgType argDef = ArgString) argDefs →
  stringsInv argDefs (S n) v →
  ∃ v', argsTurn req argDefs (Z.of_nat (S n)) v = Ok v' ∧ stringsInv argDefs n v'.
Proof.
  intros Hne Hall (Hstdin & Hfiles & [Hj Hreq] & Hrem & Hahead). unfold argsTurn.
  destruct (skipOptional_required (length argDefs) argDefs (Z.of_nat (S n))
              (remRequired v) (iArgDef v)) as (j & -> & Hjj & Hsame & Hpick);
    [done|lia|done|lia|].
  unbind. destruct (getArgDef_is_Some j argDefs Hne) as [argDef Hdef].
  rewrite Hdef.
  pose proof (getArgDef_elem _ _ _ Hdef) as Helem.
  rewrite Forall_forall in Hall. rewrite (Hall _ Helem).
  assert (∃ inputs' strs, fillString argDef
            (bool_decide (Z.of_nat (length argDefs) < j + 1)%Z) v
          = Ok (inputs', strs, ∅, None)) as (inputs' & strs & ->).
  { unfold fillString. rewrite Hstdin, Hfiles.
    destruct (inputs v); simpl; eauto. }
  unbind. eexists. split; [done|].
  pose proof (requiredFrom_chosen j argDefs argDef (remRequired v) ltac:(lia) Hdef
                ltac:(lia)) as Hchosen.
  repeat split; simpl; [lia|done| |].
  - destruct (decide (Z.of_nat (S n) ≤ remRequired v)%Z) as [Hle|Hgt].
    + destruct (Hpick Hle) as (Hlt & a & Ha & Hr).
      rewrite getArgDef_inside in Hdef by lia.
      assert (argDef = a) as -> by congruence. rewrite Hr. lia.
    + destruct (Required argDef); lia.
  - destruct (decide (Z.to_nat j < length argDefs)) as [Hlt|Hge]; [|left; lia].
    right. rewrite getArgDef_inside in Hdef by lia.
    pose proof (requiredFrom_step _ _ _ Hdef) as Hstep.
    replace (Z.to_nat (j + 1)) with (S (Z.to_nat j)) by lia.
    destruct Hahead as [Hpast|Hahead]; [lia|].
    destruct (Required argDef); lia.
Qed.

Lemma argsLoop_strings_ok req argDefs n v :
  argDefs ≠ [] →
  Forall (λ argDef, ArgType argDef = ArgString) argDefs →
  stringsInv argDefs n v →
  ∃ v', argsLoop n req argDefs v = Ok v' ∧ stringsInv argDefs 0 v'.
Proof.
  intros Hne Hall. revert v. induction n as [|n IH]; intros v Hinv; [by exists v|].
  cbn [argsLoop].
  destruct (argsTurn_strings_ok req argDefs n v Hne Hall Hinv) as (v1 & -> & Hinv1).
  unbind. by apply IH.
Qed.

Lemma find_Required_none n argDefs :
  (requiredFrom n argDefs ≤ 0)%Z → List.find Required (drop n argDefs) = None.
Proof.
  unfold requiredFrom. induction (drop n argDefs) as [|argDef l IH]; simpl; [done|].
  destruct (Required argDef); simpl; [lia|done].
Qed.

(** X19.  A command whose slots are all plain strings, and no standard
    input: if there are at least as many tokens as required slots, and not
    more tokens than slots unless the last slot is variadic, the
    distribution succeeds; the positional arguments are the tokens, in
    order, and no file is attached. *)
Theorem parseArgs_strings_accepted req root c :
  req_Command req = Some c →
  Forall (λ argDef, ArgType argDef = ArgString) (Arguments c) →
  length (List.filter Required (Arguments c)) ≤ length (req_Arguments req) →
  length (req_Arguments req) ≤ length (Arguments c)
  ∨ lastArgDefHas Variadic (Arguments c) = true →
  parseArgs req root None = Ok (withArguments req (req_Arguments req)).
Proof.
  intros Hc Hall Hreq Hfit. unfold parseArgs. rewrite Hc. unbind.
  assert (notVariadic (Arguments c)
          && bool_decide (length (Arguments c) < length (req_Arguments req)) = false)
    as ->.
  { destruct Hfit as [Hfit| Hvar].
    - rewrite (bool_decide_false (_ < _)) by lia. apply andb_false_r.
    - unfold notVariadic. rewrite Hvar.
      destruct (Arguments c); [done|]. by rewrite bool_decide_false. }
  assert (numInputs (Arguments c) (req_Arguments req) None = length (req_Arguments req))
    as ->.
  { unfold numInputs. by rewrite andb_false_r. }
  assert (∃ v, argsLoop (length (req_Arguments req)) req (Arguments c)
                 (argsStart (Arguments c) (req_Arguments req) None) = Ok v
               ∧ stdin v = None ∧ fileArgs v = ∅
               ∧ missingRequired (Arguments c) (iArgDef v) = None)
    as (v & Hloop & Hstdin & Hfiles & Hnone).
  { destruct (Arguments c) as [|argDef argDefs] eqn:Hargs.
    - destruct (req_Arguments req); [|destruct Hfit; [simpl in *; lia|done]].
      eexists. repeat split; done.
    - rewrite <- Hargs in *.
      destruct (argsLoop_strings_ok req (Arguments c) (length (req_Arguments req))
                  (argsStart (Arguments c) (req_Arguments req) None))
        as (v & Hloop & Hs & Hf & [Hj Hle] & Hrem & Hahead).
      { by rewrite Hargs. }
      { done. }
      { unfold stringsInv, argsInv, argsStart, requiredFrom. cbn [iArgDef remRequired stdin fileArgs].
        change (Z.to_nat 0) with 0. rewrite drop_0.
        repeat split; [lia..|right; lia]. }
      exists v. repeat split; [done..|].
      unfold missingRequired. case_bool_decide; [|done].
      apply find_Required_none. destruct Hahead; lia. }
  rewrite Hloop. unbind.
  assert (pretendStdin (Arguments c) v = iArgDef v) as ->.
  { unfold pretendStdin. rewrite Hstdin.
    rewrite (bool_decide_false (is_Some None)) by (by intros [? ?]).
    by rewrite andb_false_r. }
  destruct (argsLoop_strings _ _ _ _ _ Hall Hloop) as [Hstr Hlen]. simpl in Hstr, Hlen.
  assert (inputs v = []) as Hnil by (apply length_zero_iff_nil; lia).
  rewrite Hnil, app_nil_r in Hstr.
  rewrite Hnone, Hfiles, Hstr, map_size_empty.
  rewrite bool_decide_false by lia. unfold withArguments. by rewrite Hc.
Qed.

(** X20.  With a stdin handle, two slots and no token at all: if the last
    slot supports standard input and the first one is a required string
    slot that does not, the distribution succeeds with no positional
    argument and no file, although the first slot is required: the one
    turn of the loop goes to the first slot, which finds nothing, and the
    last slot is left to be read at run time. *)
Theorem parseArgs_stdin_hides_required req root c f first last :
  req_Command req = Some c →
  Arguments c = [first; last] →
  req_Arguments req = [] →
  ArgType first = ArgString → Required first = true → SupportsStdin first = false →
  SupportsStdin last = true →
  parseArgs req root (Some f) = Ok (withArguments req []).
Proof.
  intros Hc Hargs Hin Ht1 Hr1 Hs1 Hs2.
  destruct first as [n1 t1 r1 v1 s1 c1], last as [n2 t2 r2 v2 s2 c2].
  destruct req as [rt cm pth inp options fls].
  simpl in Hc, Hin, Ht1, Hr1, Hs1, Hs2. subst.
  unfold parseArgs, withArguments. cbn [req_Command req_Arguments]. unbind.
  rewrite Hargs.
  destruct r2, v2; vm_compute; reflexivity.
Qed.

End ArgsFacts.

(** ** The further properties at work on the small command tree *)

Lemma parse_command_at_path_witness :
  req_Root (requestOf bootstrapAddCmd ["bootstrap"; "add"] [] {["default" := VBool true]})
  = Some demoRoot
  ∧ ∃ c, req_Command (requestOf bootstrapAddCmd ["bootstrap"; "add"] []
                        {["default" := VBool true]}) = Some c
      ∧ resolve demoRoot ["bootstrap"; "add"] = Some c.
Proof.
  apply (@parse_command_at_path demoEnv newRequest ["bootstrap"; "add"; "--default"]
           demoRoot).
  vm_compute. reflexivity.
Defined.

Lemma parse_tokens_in_order_witness :
  ["a"; "-x"] `sublist_of` ["-x"; "cat"; "a"; "--"; "-x"]
  ∧ ["cat"] `sublist_of` ["-x"; "cat"; "a"; "--"; "-x"].
Proof.
  apply (@parse_tokens_in_order demoEnv newRequest ["-x"; "cat"; "a"; "--"; "-x"] demoRoot
           (requestOf catCmd ["cat"] ["a"; "-x"] {["x" := VBool true]})).
  vm_compute. reflexivity.
Defined.

Lemma parse_options_canonical_witness :
  ∃ path table alias optDef,
    @GetOptions demoEnv demoRoot path = inr table ∧ table !! alias = Some optDef
    ∧ OptName optDef = "recursive".
Proof.
  apply (@parse_options_canonical demoEnv newRequest ["cat"; "-r"] demoRoot
           (requestOf catCmd ["cat"] [] {["recursive" := VBool true]})
           "recursive" (VBool true)).
  - vm_compute. reflexivity.
  - reflexivity.
Defined.

Lemma parse_external_rest_witness :
  @parse demoEnv newRequest (["-x"] ++ "plugin" :: ["--"; "-q"; "cat"]) toolRoot
  = Ok {| req_Root := Some toolRoot; req_Command := Some pluginCmd;
          req_Path := [] ++ ["plugin"]; req_Arguments := [] ++ ["--"; "-q"; "cat"];
          req_Options := {["x" := VBool true]}; req_Files := None |}.
Proof.
  assert (@parseLoop demoEnv (length ["-x"]) toolRoot
            (parseStart ["-x"] toolRoot demoOptions)
          = Ok {| path := []; args := []; opts := {["x" := VBool true]};
                  cmd := toolRoot; optDefs := demoOptions;
                  st := {| cmdline := ["-x"]; i := 1 |} |}) as Hloop.
  { vm_compute. reflexivity. }
  exact (@parse_external_rest demoEnv toolRoot newRequest ["-x"] "plugin"
           ["--"; "-q"; "cat"] demoOptions _ pluginCmd demoOptions
           eq_refl Hloop eq_refl eq_refl eq_refl eq_refl eq_refl).
Defined.

Lemma parse_missing_value_witness :
  @parse demoEnv newRequest (["cat"] ++ ["--" +:+ "name"]) demoRoot
  = Fail (ErrMissingArgument "name").
Proof.
  assert (@parseLoop demoEnv (length ["cat"]) demoRoot
            (parseStart ["cat"] demoRoot demoOptions)
          = Ok {| path := ["cat"]; args := []; opts := ∅;
                  cmd := catCmd; optDefs := demoOptions;
                  st := {| cmdline := ["cat"]; i := 1 |} |}) as Hloop.
  { vm_compute. reflexivity. }
  refine (@parse_missing_value demoEnv demoRoot newRequest ["cat"] "name" demoOptions _
            (stringOption "name" ["n"]) eq_refl Hloop eq_refl _ _ eq_refl _).
  - discriminate.
  - solve_noEq.
  - discriminate.
Defined.

Lemma parse_unrecognized_word_witness :
  @parse demoEnv newRequest (["-x"] ++ "zz" :: ["cat"]) demoRoot
  = Fail (ErrSuggestions ["zz"] demoRoot).
Proof.
  assert (@parseLoop demoEnv (length ["-x"]) demoRoot
            (parseStart ["-x"] demoRoot demoOptions)
          = Ok {| path := []; args := []; opts := {["x" := VBool true]};
                  cmd := demoRoot; optDefs := demoOptions;
                  st := {| cmdline := ["-x"]; i := 1 |} |}) as Hloop.
  { vm_compute. reflexivity. }
  exact (@parse_unrecognized_word demoEnv demoRoot newRequest ["-x"] "zz" ["cat"]
           demoOptions _ eq_refl Hloop eq_refl eq_refl eq_refl eq_refl).
Defined.

Lemma parseArgs_strings_kept_witness :
  req_Arguments (requestOf pairCmd ["pair"] ["k"; "d"] ∅) = ["k"; "d"].
Proof.
  apply (@parseArgs_strings_kept demoEnv (requestOf pairCmd ["pair"] ["k"; "d"] ∅)
           demoRoot (Some pipe) pairCmd).
  - reflexivity.
  - repeat constructor.
  - vm_compute. reflexivity.
Defined.

Lemma parseArgs_too_few_witness :
  ∃ e, @parseArgs demoEnv (requestOf pairCmd ["pair"] ["k"] ∅) demoRoot None = Fail e.
Proof.
  apply (@parseArgs_too_few demoEnv (requestOf pairCmd ["pair"] ["k"] ∅) demoRoot pairCmd).
  - reflexivity.
  - simpl. lia.
Defined.

Lemma parseArgs_writes_arguments_only_witness :
  Some demoRoot = req_Root (requestOf addCmd ["add"] ["dir"] {["recursive" := VBool true]})
  ∧ Some addCmd
    = req_Command (requestOf addCmd ["add"] ["dir"] {["recursive" := VBool true]})
  ∧ ["add"] = req_Path (requestOf addCmd ["add"] ["dir"] {["recursive" := VBool true]})
  ∧ ({["recursive" := VBool true]} : gmap string value)
    = req_Options (requestOf addCmd ["add"] ["dir"] {["recursive" := VBool true]}).
Proof.
  assert (@parseArgs demoEnv
            (requestOf addCmd ["add"] ["dir"] {["recursive" := VBool true]}) demoRoot None
          = Ok {| req_Root := Some demoRoot; req_Command := Some addCmd;
                  req_Path := ["add"]; req_Arguments := [];
                  req_Options := {["recursive" := VBool true]};
                  req_Files :=
                    Some {["dir" := DirectoryTree "dir" false
                                      {| IsDir := true; ModeCharDevice := false |}]} |})
    as Hargs.
  { vm_compute. reflexivity. }
  exact (@parseArgs_writes_arguments_only demoEnv _ demoRoot None _ Hargs).
Defined.

Lemma parseArgs_never_fails_to_return_witness :
  (∃ req', @parseArgs demoEnv (requestOf addCmd ["add"] ["-"] ∅) demoRoot None = Ok req')
  ∨ (∃ e, @parseArgs demoEnv (requestOf addCmd ["add"] ["-"] ∅) demoRoot None = Fail e).
Proof.
  apply (@parseArgs_never_fails_to_return demoEnv (requestOf addCmd ["add"] ["-"] ∅)
           demoRoot None addCmd).
  reflexivity.
Defined.

Lemma stdin_notice_once_witness :
  ∃ r, @maybeWrapStdin demoEnv (Some terminal) = Ok r
    ∧ Close r = terminal
    ∧ (∀ stderr, (Read r stderr).2 = terminal)
    ∧ ∀ n stderr,
        (reads (S n) r stderr).2
        = stderr ++ ["ipfs: Reading from /dev/tty; send Ctrl-d to stop."].
Proof.
  exact (@stdin_notice_once demoEnv terminal {| IsDir := false; ModeCharDevice := true |}
           eq_refl).
Defined.

Lemma dash_is_stdin_witness :
  @resolveFile demoEnv (requestOf addCmd ["add"] ["-"] ∅)
    (slot "file" ArgFile true false true true) (Some pipe) "-"
  = Ok ("", ReaderFile "/dev/stdin" (fileReader pipe))
  ∧ @resolveFile demoEnv (requestOf addCmd ["add"] ["-"] ∅)
      (slot "file" ArgFile true false true true) None "-"
    = Fail ErrInvalid.
Proof.
  exact (@dash_is_stdin demoEnv (requestOf addCmd ["add"] ["-"] ∅)
           (slot "file" ArgFile true false true true) pipe
           {| IsDir := false; ModeCharDevice := false |} eq_refl).
Defined.

Lemma parseArgs_strings_accepted_witness :
  @parseArgs demoEnv (requestOf catCmd ["cat"] ["a"; "b"; "c"; "d"] ∅) demoRoot None
  = Ok (withArguments (requestOf catCmd ["cat"] ["a"; "b"; "c"; "d"] ∅)
          ["a"; "b"; "c"; "d"]).
Proof.
  apply (@parseArgs_strings_accepted demoEnv
           (requestOf catCmd ["cat"] ["a"; "b"; "c"; "d"] ∅) demoRoot catCmd).
  - reflexivity.
  - repeat constructor.
  - simpl. lia.
  - right. reflexivity.
Defined.

Lemma parseArgs_stdin_hides_required_witness :
  @parseArgs demoEnv (requestOf pairCmd ["pair"] [] ∅) demoRoot (Some terminal)
  = Ok (withArguments (requestOf pairCmd ["pair"] [] ∅) []).
Proof.
  exact (@parseArgs_stdin_hides_required demoEnv (requestOf pairCmd ["pair"] [] ∅)
           demoRoot pairCmd terminal
           (slot "key" ArgString true false false false)
           (slot "data" ArgString true false true false)
           eq_refl eq_refl eq_refl eq_refl eq_refl eq_refl eq_refl).
Defined.
